(** * Catalog utilities of the FRB package: a shallow embedding

    This development embeds [frb/surveys/catalog_utils.py] and states the
    properties of its cross-matching, merging, duplicate-removal and
    magnitude-conversion routines, and of its routines that clean a
    catalog, match identifiers and sort a catalog by separation.

    The Python code works on astropy tables, which are mutable objects, so
    the embedding is in three layers:

    - tables as values (column names and rows) and the astropy operations
      the module calls, as pure functions that either return a table or
      raise;
    - a store of table objects addressed by reference, an event trace, and a
      state-and-exception monad: every astropy call either allocates a new
      object or updates one in place, as the library does;
    - the functions of the module, written in the monad following the source
      line by line.

    Floating-point numbers are represented by the rational they denote, in
    canonical form ([Qc]), so equality of values is Leibniz equality.  The
    two numerical routines of the environment that are not rational
    functions, the great-circle separation and the power [10**x], are
    fields of the [Numerics] interface. *)

From stdpp Require Import base option list strings numbers sorting.
From Stdlib Require Import QArith Qcanon Qround.

#[local] Open Scope Qc_scope.
#[local] Set Warnings "-clear-no-such-hyp".

(** ** Python exceptions and results *)

Inductive exn : Type :=
  | AssertionError (msg : string)
  | KeyError (key : string)
  | ValueError (msg : string)
  | TypeError (msg : string)
  | IndexError (msg : string)
  | AttributeError (msg : string)
  | TableMergeError (msg : string).

(** A computation that returns a value or raises. *)
Definition Res (A : Type) : Type := exn + A.

Definition raise {A} (e : exn) : Res A := inl e.

#[global] Instance Res_ret : MRet Res := λ _ x, inr x.
#[global] Instance Res_bind : MBind Res := λ _ _ f m,
  match m with inl e => inl e | inr x => f x end.

Definition is_ok {A} (r : Res A) : Prop := ∃ x, r = inr x.

(** ** The numerical environment *)

(** A position on the sky, in degrees. *)
Record SkyCoord : Type := mkSkyCoord { ra : Qc; dec : Qc }.

(** [separation] is the on-sky angular separation astropy computes between
    two positions, in arcseconds; [pow10] is [10**x]. *)
Class Numerics : Type := {
  separation : SkyCoord → SkyCoord → Qc;
  pow10 : Qc → Qc
}.

(** ** Tables *)

(** A cell holds a number or is masked (missing). *)
Abbreviation cell := (option Qc).

(** A row is the list of its cells. *)
Abbreviation row := (list cell).

(** A table: ordered column names and rows; a row lists its cells in the
    order of [colnames]. *)
Record Table : Type := mkTable { colnames : list string; rows : list row }.

Definition len (t : Table) : nat := length (rows t).

(** Tables as astropy keeps them: distinct column names, and one cell per
    column in every row. *)
Definition wf_table (t : Table) : Prop :=
  NoDup (colnames t) ∧ Forall (λ r, length r = length (colnames t)) (rows t).

#[global] Instance wf_table_dec t : Decision (wf_table t).
Proof. unfold wf_table. apply _. Defined.

(** [name in t.colnames] *)
Definition isin (name : string) (names : list string) : bool :=
  bool_decide (name ∈ names).

(** Position of a column. *)
Definition col_index (name : string) (names : list string) : option nat :=
  fst <$> list_find (λ n, n = name) names.

(** The cell of row [r] under column [name]. *)
Definition row_get (names : list string) (r : row) (name : string) : option cell :=
  i ← col_index name names; r !! i.

(** [t[name]]: the column as a list of cells; raises [KeyError] if the
    column does not exist. *)
Definition getcol (t : Table) (name : string) : Res (list cell) :=
  match col_index name (colnames t) with
  | None => raise (KeyError name)
  | Some i => inr ((λ r, default None (r !! i)) <$> rows t)
  end.

(** Selection of the entries of [l] at the [true] positions of a boolean
    array of the same length. *)
Fixpoint mask_filter {A} (mask : list bool) (l : list A) : list A :=
  match mask, l with
  | b :: mask', x :: l' => if b then x :: mask_filter mask' l' else mask_filter mask' l'
  | _, _ => []
  end.

(** [a[mask]] for a boolean array [mask]: numpy raises when the lengths
    differ. *)
Definition mask_select {A} (l : list A) (mask : list bool) : Res (list A) :=
  if decide (length mask = length l) then inr (mask_filter mask l)
  else raise (IndexError "boolean index did not match indexed array").

(** [a[idx]] for an integer array [idx]: raises on an index out of range. *)
Definition take_idx {A} (l : list A) (idx : list nat) : Res (list A) :=
  match mapM (λ i, l !! i) idx with
  | Some k => inr k
  | None => raise (IndexError "index out of bounds")
  end.

(** [t[mask]] and [t[idx]]: a new table with the selected rows. *)
Definition table_mask (t : Table) (mask : list bool) : Res Table :=
  rs ← mask_select (rows t) mask; mret (mkTable (colnames t) rs).

Definition table_take (t : Table) (idx : list nat) : Res Table :=
  rs ← take_idx (rows t) idx; mret (mkTable (colnames t) rs).


(** ** Ordering and equality of cells *)

(** Order used when sorting: numbers by value, masked cells last. *)
Definition cell_le (a b : cell) : Prop :=
  match a, b with
  | Some x, Some y => x ≤ y
  | _, None => True
  | None, Some _ => False
  end.

#[global] Instance cell_le_dec a b : Decision (cell_le a b).
Proof. destruct a, b; simpl; apply _. Defined.

(** Lexicographic order on tuples of cells (sort keys). *)
Fixpoint key_le (k1 k2 : list cell) : Prop :=
  match k1, k2 with
  | [], _ => True
  | _ :: _, [] => False
  | a :: k1', b :: k2' => (cell_le a b ∧ a ≠ b) ∨ (a = b ∧ key_le k1' k2')
  end.

#[global] Instance key_le_dec k1 k2 : Decision (key_le k1 k2).
Proof. revert k2; induction k1; intros [|??]; simpl; apply _. Defined.

(** Elementwise [==] of numpy on two cells, as seen by [np.where]: the
    values are compared where both cells hold one and the masks elsewhere,
    so two masked cells count as equal, a masked and an unmasked one as
    different. *)
Definition cell_eqb (a b : cell) : bool :=
  match a, b with
  | Some x, Some y => bool_decide (x = y)
  | None, None => true
  | _, _ => false
  end.

(** The cells of a row under the columns [keys]; a missing column reads as
    masked. *)
Definition row_key (names : list string) (keys : list string) (r : row) : list cell :=
  (λ k, default None (row_get names r k)) <$> keys.

Definition has_masked (k : list cell) : bool := bool_decide (None ∈ k).

(** ** Column naming when tables are combined *)

(** astropy's [get_col_name_map], for two input tables.  A column that is
    not one of the [common] (key) columns and whose name also occurs in the
    other table is renamed with [uniq_col_name]. *)
Definition uniq_col_name (col_name table_name : string) : string :=
  col_name +:+ "_" +:+ table_name.

Definition out_name (common other : list string) (table_name name : string) : string :=
  if isin name common then name
  else if isin name other then uniq_col_name name table_name
  else name.

(** One step of the loop over the column names of a table: a common name is
    listed once, any other output name is appended as it comes. *)
Definition add_col_name (common other : list string) (table_name : string)
    (acc : list string) (name : string) : list string :=
  if isin name common then (if isin name acc then acc else acc ++ [name])
  else acc ++ [out_name common other table_name name].

Definition col_name_list (common names1 names2 : list string) (tn1 tn2 : string)
    : list string :=
  foldl (add_col_name common names1 tn2)
        (foldl (add_col_name common names2 tn1) [] names1) names2.

(** The input column of a table that feeds output column [o], if any. *)
Definition in_name (common other : list string) (table_name : string)
    (names : list string) (o : string) : option string :=
  last (filter (λ n, out_name common other table_name n = o) names).

(** The name map: output names in order, each with its source column in the
    first and in the second table.  Repeated output names are refused. *)
Definition get_col_name_map (common names1 names2 : list string) (tn1 tn2 : string)
    : Res (list (string * option string * option string)) :=
  let l := col_name_list common names1 names2 tn1 tn2 in
  if decide (NoDup l) then
    inr ((λ o, (o, in_name common names2 tn1 names1 o,
                   in_name common names1 tn2 names2 o)) <$> l)
  else raise (TableMergeError "Merging column names resulted in duplicates").

(** The two table labels; astropy numbers the tables when none are given. *)
Definition table_labels (table_names : option (list string)) : Res (string * string) :=
  match default ["1"; "2"] table_names with
  | [a; b] => inr (a, b)
  | _ => raise (ValueError "Number of arrays must match number of table_names")
  end.

(** The cell a (possibly absent) input row contributes under a source
    column: masked when the row is absent. *)
Definition src_cell (names : list string) (r : option row) (n : string) : cell :=
  default None (r' ← r; row_get names r' n).

(** ** astropy.table operations *)

(** [hstack([t1, t2], table_names=...)]: columns side by side; the shorter
    table is padded with masked cells. *)
Definition hstack_cell (t1 t2 : Table) (r1 r2 : option row)
    (e : string * option string * option string) : cell :=
  match e with
  | (_, _, Some n2) => src_cell (colnames t2) r2 n2
  | (_, Some n1, None) => src_cell (colnames t1) r1 n1
  | (_, None, None) => None
  end.

Definition hstack (t1 t2 : Table) (table_names : option (list string)) : Res Table :=
  '(tn1, tn2) ← table_labels table_names;
  m ← get_col_name_map [] (colnames t1) (colnames t2) tn1 tn2;
  let n_rows := len t1 `max` len t2 in
  mret (mkTable (m.*1.*1)
         ((λ k, hstack_cell t1 t2 (rows t1 !! k) (rows t2 !! k) <$> m) <$> seq 0 n_rows)).

(** [vstack([t1, t2])]: rows of [t1] above rows of [t2]; the output has
    every column of either table, and a table that lacks a column
    contributes masked cells. *)
Definition vstack (t1 t2 : Table) : Res Table :=
  let names := remove_dups (colnames t1 ++ colnames t2) in
  m ← get_col_name_map names (colnames t1) (colnames t2) "1" "2";
  mret (mkTable (m.*1.*1)
         (((λ r, (λ e : string * option string * option string,
                    from_option (src_cell (colnames t1) (Some r)) None (e.1.2)) <$> m)
             <$> rows t1) ++
          ((λ r, (λ e : string * option string * option string,
                    from_option (src_cell (colnames t2) (Some r)) None (e.2)) <$> m)
             <$> rows t2))).

(** [t.filled(v)]: a copy in which every masked cell holds [v]. *)
Definition filled (v : Qc) (t : Table) : Table :=
  mkTable (colnames t) ((λ r : row, (λ c : cell, Some (default v c)) <$> r) <$> rows t).

(** Removal of the cells at the given column positions. *)
Definition drop_cols (names drop : list string) (r : row) : row :=
  mask_filter ((λ n, negb (isin n drop)) <$> names) r.

(** [t.remove_columns(names)]: every name must exist. *)
Definition remove_columns (names : list string) (t : Table) : Res Table :=
  match filter (λ n, n ∉ colnames t) names with
  | [] => inr (mkTable (filter (λ n, n ∉ names) (colnames t))
                       (drop_cols (colnames t) names <$> rows t))
  | n :: _ => raise (KeyError n)
  end.

(** [t.rename_column(name, new_name)] *)
Definition rename_column (name new_name : string) (t : Table) : Res Table :=
  if decide (name ∈ colnames t) then
    if decide (name = new_name) then inr t
    else if decide (new_name ∈ colnames t) then raise (KeyError new_name)
    else inr (mkTable ((λ n, if decide (n = name) then new_name else n) <$> colnames t)
                      (rows t))
  else raise (KeyError name).

(** [join(t1, t2, keys=keys, join_type='outer', table_names=...)].

    Rows are grouped by the value of the key columns, the groups come in
    ascending key order, and within a group every left row is paired with
    every right row; a row without a partner on the other side is kept, with
    the other table's columns masked. *)
Definition join_group (L R : list row) : list (option row * option row) :=
  match L, R with
  | [], _ => (λ r, (None, Some r)) <$> R
  | _, [] => (λ l, (Some l, None)) <$> L
  | _, _ => l ← L; (λ r, (Some l, Some r)) <$> R
  end.

(** A key column is read from the right row when there is one, from the
    left row otherwise. *)
Definition join_cell (t1 t2 : Table) (p : option row * option row)
    (e : string * option string * option string) : cell :=
  match e with
  | (_, Some n1, Some n2) =>
      match p.2 with
      | Some _ => src_cell (colnames t2) p.2 n2
      | None => src_cell (colnames t1) p.1 n1
      end
  | (_, Some n1, None) => src_cell (colnames t1) p.1 n1
  | (_, None, Some n2) => src_cell (colnames t2) p.2 n2
  | (_, None, None) => None
  end.

Definition check_keys (label : string) (t : Table) (keys : list string) : Res unit :=
  match filter (λ k, k ∉ colnames t) keys with
  | _ :: _ => raise (TableMergeError (label +:+ " table does not have key column"))
  | [] =>
      if existsb has_masked (row_key (colnames t) keys <$> rows t)
      then raise (TableMergeError (label +:+ " key column has missing values"))
      else mret ()
  end.

Definition join_pairs (t1 t2 : Table) (keys : list string)
    : list (option row * option row) :=
  let key1 := row_key (colnames t1) keys in
  let key2 := row_key (colnames t2) keys in
  k ← merge_sort key_le (remove_dups ((key1 <$> rows t1) ++ (key2 <$> rows t2)));
  join_group (filter (λ r, key1 r = k) (rows t1)) (filter (λ r, key2 r = k) (rows t2)).

Definition join_outer (t1 t2 : Table) (keys : list string)
    (table_names : option (list string)) : Res Table :=
  '(tn1, tn2) ← table_labels table_names;
  check_keys "Left" t1 keys;;
  check_keys "Right" t2 keys;;
  m ← get_col_name_map keys (colnames t1) (colnames t2) tn1 tn2;
  mret (mkTable (m.*1.*1)
         ((λ p, join_cell t1 t2 p <$> m) <$> join_pairs t1 t2 keys)).

(** [setdiff(t1, t2)]: the rows of [t1] whose content, over all the columns
    of [t1], is the content of no row of [t2]; in ascending order of
    content. *)
Definition setdiff (t1 t2 : Table) : Res Table :=
  let keys := colnames t1 in
  match filter (λ k, k ∉ colnames t2) keys with
  | _ :: _ => raise (ValueError "columns are missing from table2, cannot take a set difference")
  | [] =>
      check_keys "Left" t1 keys;;
      check_keys "Right" t2 keys;;
      let key1 := row_key (colnames t1) keys in
      let present := row_key (colnames t2) keys <$> rows t2 in
      mret (mkTable (colnames t1)
             (filter (λ r, key1 r ∉ present)
                (merge_sort (λ r r', key_le (key1 r) (key1 r')) (rows t1))))
  end.

(** [t.sort(key)]: rows in ascending order of one column. *)
Definition sort_by (key : string) (t : Table) : Res Table :=
  if decide (key ∈ colnames t) then
    let k := row_key (colnames t) [key] in
    inr (mkTable (colnames t) (merge_sort (λ r r', key_le (k r) (k r')) (rows t)))
  else raise (KeyError key).

(** [np.where(mask)[0]]: the positions that hold [True]. *)
Fixpoint np_where (mask : list bool) : list nat :=
  match mask with
  | [] => []
  | b :: mask' => (if b then [0%nat] else []) ++ (S <$> np_where mask')
  end.

(** [t.remove_rows(idx)] *)
Definition remove_rows (idx : list nat) (t : Table) : Res Table :=
  if decide (Forall (λ i, i < len t)%nat idx) then
    inr (mkTable (colnames t)
           (mask_filter ((λ i, bool_decide (i ∉ idx)) <$> seq 0 (len t)) (rows t)))
  else raise (IndexError "index out of bounds").

(** ** numpy assignment through a boolean mask *)

(** [a[mask] = v] for a scalar [v]. *)
Fixpoint mask_fill {A} (mask : list bool) (a : list A) (v : A) : list A :=
  match mask, a with
  | b :: mask', x :: a' => (if b then v else x) :: mask_fill mask' a' v
  | _, _ => a
  end.

(** [a[mask] = vs] for an array [vs]: the values go, in order, to the
    positions where the mask holds. *)
Fixpoint mask_put {A} (mask : list bool) (a vs : list A) : list A :=
  match mask, a with
  | true :: mask', x :: a' =>
      match vs with
      | v :: vs' => v :: mask_put mask' a' vs'
      | [] => x :: mask_put mask' a' []
      end
  | false :: mask', x :: a' => x :: mask_put mask' a' vs
  | _, _ => a
  end.

Definition count_true (mask : list bool) : nat := length (filter (λ b, b = true) mask).

Definition mask_assign_scalar {A} (a : list A) (mask : list bool) (v : A) : Res (list A) :=
  if decide (length mask = length a) then inr (mask_fill mask a v)
  else raise (IndexError "boolean index did not match indexed array").

Definition mask_assign {A} (a : list A) (mask : list bool) (vs : list A) : Res (list A) :=
  if decide (length mask = length a) then
    if decide (length vs = count_true mask) then inr (mask_put mask a vs)
    else raise (ValueError "NumPy boolean array indexing assignment cannot assign")
  else raise (IndexError "boolean index did not match indexed array").

(** ** The store of table objects *)

(** A Python variable that holds a table holds a reference to it. *)
Abbreviation ref := nat.

(** The trace records every call of the sky matcher, with the sizes of the
    two coordinate arrays. *)
Inductive event : Type :=
  | MatchToCatalogSky (n_coords n_catalog : nat).

Record heap : Type := Heap { objs : list Table; trace : list event }.

(** Computations that read and update the store and may raise.  An
    exception leaves the store as it was when it was raised. *)
Definition M (A : Type) : Type := heap → Res A * heap.

#[global] Instance M_ret : MRet M := λ _ x h, (inr x, h).
#[global] Instance M_bind : MBind M := λ _ _ f m h,
  match m h with
  | (inl e, h') => (inl e, h')
  | (inr x, h') => f x h'
  end.

Definition throw {A} (e : exn) : M A := λ h, (inl e, h).

Definition lift {A} (r : Res A) : M A := λ h, (r, h).

(** [assert cond, msg] *)
Definition py_assert (cond : bool) (msg : string) : M unit :=
  if cond then mret () else throw (AssertionError msg).

(** Reading the object behind a reference; a reference to nothing stands
    for an argument that is not a table, which has none of the attributes
    of one. *)
Definition deref (r : ref) : M Table := λ h,
  match objs h !! r with
  | Some t => (inr t, h)
  | None => (inl (AttributeError "not a Table"), h)
  end.

(** [isinstance(r, (Table, QTable))] *)
Definition is_table (r : ref) : M bool := λ h,
  (inr (bool_decide (is_Some (objs h !! r))), h).

(** A new object. *)
Definition alloc (t : Table) : M ref := λ h,
  (inr (length (objs h)), Heap (objs h ++ [t]) (trace h)).

(** Update of an object in place. *)
Definition assign (r : ref) (t : Table) : M unit := λ h,
  (inr (), Heap (<[r := t]> (objs h)) (trace h)).

Definition emit (e : event) : M unit := λ h,
  (inr (), Heap (objs h) (trace h ++ [e])).

(** Operations that build a new table from one or two tables, and
    operations that change a table in place. *)
Definition new1 (f : Table → Res Table) (r : ref) : M ref :=
  t ← deref r; t' ← lift (f t); alloc t'.

Definition new2 (f : Table → Table → Res Table) (r1 r2 : ref) : M ref :=
  t1 ← deref r1; t2 ← deref r2; t' ← lift (f t1 t2); alloc t'.

Definition update (f : Table → Res Table) (r : ref) : M unit :=
  t ← deref r; t' ← lift (f t); assign r t'.

Definition tbl_colnames (r : ref) : M (list string) := t ← deref r; mret (colnames t).
Definition tbl_len (r : ref) : M nat := t ← deref r; mret (len t).
Definition tbl_getcol (r : ref) (name : string) : M (list cell) :=
  t ← deref r; lift (getcol t name).
Definition tbl_copy : ref → M ref := new1 inr.
Definition tbl_mask (r : ref) (mask : list bool) : M ref := new1 (λ t, table_mask t mask) r.
Definition tbl_take (r : ref) (idx : list nat) : M ref := new1 (λ t, table_take t idx) r.
Definition tbl_hstack (r1 r2 : ref) (table_names : option (list string)) : M ref :=
  new2 (λ t1 t2, hstack t1 t2 table_names) r1 r2.
Definition tbl_vstack : ref → ref → M ref := new2 vstack.
Definition tbl_setdiff : ref → ref → M ref := new2 setdiff.
Definition tbl_join (r1 r2 : ref) (keys : list string)
    (table_names : option (list string)) : M ref :=
  new2 (λ t1 t2, join_outer t1 t2 keys table_names) r1 r2.
Definition tbl_filled (r : ref) (v : Qc) : M ref := new1 (λ t, inr (filled v t)) r.
Definition tbl_remove_columns (r : ref) (names : list string) : M unit :=
  update (remove_columns names) r.
Definition tbl_rename_column (r : ref) (name new_name : string) : M unit :=
  update (rename_column name new_name) r.
Definition tbl_sort (r : ref) (key : string) : M unit := update (sort_by key) r.
Definition tbl_remove_rows (r : ref) (idx : list nat) : M unit := update (remove_rows idx) r.

(** [t.rename_columns(names, new_names)]: the two lists must have the same
    length; then one [rename_column] after the other. *)
Fixpoint rename_each (r : ref) (pairs : list (string * string)) : M unit :=
  match pairs with
  | [] => mret ()
  | (n, n') :: pairs' => tbl_rename_column r n n';; rename_each r pairs'
  end.

Definition tbl_rename_columns (r : ref) (names new_names : list string) : M unit :=
  if decide (length names = length new_names) then rename_each r (zip names new_names)
  else throw (ValueError "names and new_names must have the same length").

(** ** frb.surveys.catalog_utils *)

(** Python values that can stand where a table label is expected. *)
Inductive pyval : Type :=
  | PyStr (s : string)
  | PyNum (z : Z).

Definition is_str (v : pyval) : bool :=
  match v with PyStr _ => true | PyNum _ => false end.

Definition str_of (v : pyval) : string :=
  match v with PyStr s => s | PyNum _ => "" end.

(** [seq[i]] on an optional tuple: [None] is not subscriptable. *)
Definition subscript (table_names : option (list pyval)) (i : nat) : M pyval :=
  match table_names with
  | None => throw (TypeError "'NoneType' object is not subscriptable")
  | Some l =>
      match l !! i with
      | Some v => mret v
      | None => throw (IndexError "tuple index out of range")
      end
  end.

(** The keyword arguments of [xmatch_catalogs], with their defaults. *)
Record xmatch_kwargs : Type := mk_kwargs {
  RACol1 : string; DecCol1 : string;
  RACol2 : string; DecCol2 : string;
  return_match_idx : bool
}.

Definition default_kwargs : xmatch_kwargs :=
  mk_kwargs "ra" "dec" "ra" "dec" false.

(** What [xmatch_catalogs] returns: two tables, or the index and
    separation arrays. *)
Inductive xmatch_result : Type :=
  | MatchedTables (match1 match2 : ref)
  | MatchIndices (idx : list nat) (d2d : list Qc).

(** A quantity with a unit, as far as [_mags_to_flux] looks at it. *)
Inductive unit_kind : Type := Jy | mJy | arcsec | dimensionless.

Record Quantity : Type := mkQuantity { value : Qc; unit_of : unit_kind }.

(** [q.decompose().unit == units.kg/units.s**2] *)
Definition is_flux_density (q : Quantity) : bool :=
  match unit_of q with Jy | mJy => true | _ => false end.

Section CatalogUtils.

Context `{Numerics}.

(** [SkyCoord(ra_col, dec_col, unit="deg")]: one position per row.  A
  masked coordinate is outside the contract of the matcher and is
  rejected. *)
Fixpoint sky_coords (ra_col dec_col : list cell) : Res (list SkyCoord) :=
match ra_col, dec_col with
| Some a :: ra_col', Some d :: dec_col' =>
    cs ← sky_coords ra_col' dec_col'; mret (mkSkyCoord a d :: cs)
| [], [] => mret []
| _, _ => raise (ValueError "invalid coordinate")
end.

(** The nearest object of a non-empty catalog [p :: rest] to position [c]:
  its index and its separation from [c].  Of several objects at the same
  smallest separation the first is returned. *)
Fixpoint nearest (c p : SkyCoord) (rest : list SkyCoord) : nat * Qc :=
match rest with
| [] => (0%nat, separation c p)
| p' :: rest' =>
    let '(j, d) := nearest c p' rest' in
    if decide (separation c p ≤ d) then (0%nat, separation c p) else (S j, d)
end.

(** [coords.match_to_catalog_sky(catalog)]: for every position of [coords]
  the index of the nearest catalog object and the separation to it.
  astropy refuses an empty catalog. *)
Definition match_to_catalog_sky (coords catalog : list SkyCoord)
  : M (list nat * list Qc) :=
emit (MatchToCatalogSky (length coords) (length catalog));;
match catalog with
| [] => throw (ValueError "The catalog for coordinate matching cannot be a scalar or length-0.")
| p :: rest =>
    let m := (λ c, nearest c p rest) <$> coords in
    mret (m.*1, m.*2)
end.

(** [xmatch_catalogs(cat1, cat2, skydist, **kwargs)]; [skydist] in
  arcseconds. *)
Definition xmatch_catalogs (cat1 cat2 : ref) (skydist : Qc) (kw : xmatch_kwargs)
  : M xmatch_result :=
b ← is_table cat1;
py_assert (b && b) "Catalogs must be astropy Table instances.";;
names1 ← tbl_colnames cat1;
py_assert (isin (RACol1 kw) names1 && isin (DecCol1 kw) names1)
  " Could not find either RACol1 or DecCol1 in cat1";;
names2 ← tbl_colnames cat2;
py_assert (isin (RACol2 kw) names2 && isin (DecCol2 kw) names2)
  " Could not find either RACol2 or DecCol2 in cat2";;
(* Get coordinates *)
ra1 ← tbl_getcol cat1 (RACol1 kw); dec1 ← tbl_getcol cat1 (DecCol1 kw);
cat1_coord ← lift (sky_coords ra1 dec1);
ra2 ← tbl_getcol cat2 (RACol2 kw); dec2 ← tbl_getcol cat2 (DecCol2 kw);
cat2_coord ← lift (sky_coords ra2 dec2);
(* Match 2D *)
'(idx, d2d) ← match_to_catalog_sky cat1_coord cat2_coord;
(* Get matched tables *)
let close := (λ d, bool_decide (d < skydist)) <$> d2d in
match1 ← tbl_mask cat1 close;
sel ← lift (mask_select idx close);
match2 ← tbl_take cat2 sel;
if return_match_idx kw then mret (MatchIndices idx d2d)
else mret (MatchedTables match1 match2).

(** [_mags_to_flux(mag, zpt_flux, mag_err)] on arrays of numbers.  The
  result is the flux array, with the array of flux errors when [mag_err]
  is given. *)
Definition _mags_to_flux (mag : list Qc) (zpt_flux : Quantity)
  (mag_err : option (list Qc)) : Res (list Qc * option (list Qc)) :=
(* Data validation -- check for Jy *)
(if is_flux_density zpt_flux then mret ()
 else raise (AssertionError "zpt_flux units should be Jy or with dimensions kg/s^2."));;
(* Prepare output column *)
let flux := mag in
(* Convert fluxes *)
let badmags := (λ m, bool_decide (m < Q2Qc (-10))) <$> mag in
flux ← mask_assign_scalar flux badmags (Q2Qc (-99));
good ← mask_select mag (negb <$> badmags);
flux ← mask_assign flux (negb <$> badmags)
         ((λ m, value zpt_flux * pow10 (- m / Q2Qc 2.5)) <$> good);
match mag_err with
| Some mag_err =>
    let flux_err := mag_err in
    let baderrs :=
      (λ e, bool_decide (e < Q2Qc 0) || bool_decide (e = Q2Qc 999)) <$> mag_err in
    flux_err ← mask_assign_scalar flux_err baderrs (Q2Qc (-99));
    f ← mask_select flux (negb <$> baderrs);
    e ← mask_select mag_err (negb <$> baderrs);
    flux_err ← mask_assign flux_err (negb <$> baderrs)
                 (zip_with (λ f e, f * (pow10 (e / Q2Qc 2.5) - Q2Qc 1)) f e);
    mret (flux, Some flux_err)
| None => mret (flux, None)
end.

(** [np.where(col[1:] == col[:-1])[0] + 1]: the positions whose cell
  equals the cell just before. *)
Definition duplicate_positions (col : list cell) : list nat :=
S <$> np_where (zip_with cell_eqb (drop 1 col) (take (length col - 1) col)).

(** [remove_duplicates(tab, idcol)] *)
Definition remove_duplicates (tab : ref) (idcol : string) : M ref :=
unique_tab ← tbl_copy tab;
names ← tbl_colnames tab;
py_assert (isin idcol names) "idcol not a column in the given table";;
(* Sort entries first. *)
tbl_sort unique_tab idcol;;
(* Get the duplicates. *)
col ← tbl_getcol unique_tab idcol;
let duplicate_ids := duplicate_positions col in
tbl_remove_rows unique_tab duplicate_ids;;
mret unique_tab.

(** [xmatch_and_merge_cats(tab1, tab2, tol, table_names, **kwargs)]; [tol]
  in arcseconds. *)
Definition xmatch_and_merge_cats (tab1 tab2 : ref) (tol : Qc)
  (table_names : option (list pyval)) (kwargs : xmatch_kwargs) : M ref :=
match table_names with
| Some tn =>
    py_assert (bool_decide (length tn = 2%nat))
      "Invalid number of table names for two tables.";;
    tn0 ← subscript table_names 0; tn1 ← subscript table_names 1;
    py_assert (is_str tn0 && is_str tn1) "Table names should be strings."
| None => mret ()
end;;
names1 ← tbl_colnames tab1;
py_assert (isin "ra" names1 && isin "dec" names1)
  "Table 1 doesn't have column 'ra' and/or 'dec'.";;
names2 ← tbl_colnames tab2;
py_assert (isin "ra" names2 && isin "dec" names2)
  "Table 2 doesn't have column 'ra' and/or 'dec'.";;
(* Cross-match tables for tab1 INTERSECTION tab2. *)
res ← xmatch_catalogs tab1 tab2 tol kwargs;
'(matched_tab1, matched_tab2) ←
   match res with
   | MatchedTables m1 m2 => mret (m1, m2)
   | MatchIndices _ _ => throw (TypeError "hstack: the inputs are not tables")
   end;
(* tab1 INTERSECTION tab2 *)
let labels := fmap (M := list) str_of <$> table_names in
inner_join ← tbl_hstack matched_tab1 matched_tab2 labels;
(* Remove unnecessary ra/dec columns and rename remaining coordinate
   columns correctly. *)
tn0 ← subscript table_names 0;
tn1 ← subscript table_names 1;
let tab1_coord_cols := ["ra_" +:+ str_of tn0; "dec_" +:+ str_of tn0] in
let tab2_coord_cols := ["ra_" +:+ str_of tn1; "dec_" +:+ str_of tn1] in
tbl_remove_columns inner_join tab2_coord_cols;;
tbl_rename_columns inner_join tab1_coord_cols ["ra"; "dec"];;
(* Now get all objects that weren't matched. *)
not_matched_tab1 ← tbl_setdiff tab1 matched_tab1;
not_matched_tab2 ← tbl_setdiff tab2 matched_tab2;
(* (tab1 UNION tab2) - (tab1 INTERSECTION tab2) *)
n1 ← tbl_len not_matched_tab1;
n2 ← tbl_len not_matched_tab2;
merged ←
  (* Are there unmatched entries in both tables? *)
  (if bool_decide (n1 ≠ 0%nat) && bool_decide (n2 ≠ 0%nat) then
     outer_join ← tbl_join not_matched_tab1 not_matched_tab2 ["ra"; "dec"] labels;
     stacked ← tbl_vstack inner_join outer_join;
     tbl_filled stacked (Q2Qc (-999))
   (* Only table 1 has unmatched entries? *)
   else if bool_decide (n1 ≠ 0%nat) && bool_decide (n2 = 0%nat) then
     tbl_vstack inner_join not_matched_tab1
   (* Only table 2? *)
   else if bool_decide (n1 = 0%nat) && bool_decide (n2 ≠ 0%nat) then
     tbl_vstack inner_join not_matched_tab2
   (* Neither? *)
   else mret inner_join);
(* Final cleanup. Just in case. *)
names ← tbl_colnames merged;
let weird_cols := (λ n, isin n names) <$> ["ra_1"; "dec_1"; "ra_2"; "dec_2"] in
(if existsb id weird_cols
 then tbl_remove_columns merged (mask_filter weird_cols ["ra_1"; "dec_1"; "ra_2"; "dec_2"])
 else mret ());;
(* Fill and return. *)
tbl_filled merged (Q2Qc (-999)).

End CatalogUtils.

(** ** The other functions of the module *)











(** [t[name] = vals]: the column is replaced if it exists and added as the
    last one otherwise. *)
Definition set_column (name : string) (vals : list cell) (t : Table) : Res Table :=
  if decide (length vals = len t) then
    match col_index name (colnames t) with
    | Some i => inr (mkTable (colnames t) (zip_with (λ (r : row) v, <[i := v]> r) (rows t) vals))
    | None => inr (mkTable (colnames t ++ [name])
                           (zip_with (λ (r : row) v, r ++ [v]) (rows t) vals))
    end
  else raise (ValueError "Inconsistent data column lengths").




Section SortBySeparation.

Context `{Numerics}.


End SortBySeparation.


(** ** Vocabulary of the statements *)

(** The store [l0] extended by the objects [ext] allocated since. *)
Definition ext_heap (l0 ext : list Table) (tr : list event) : heap :=
  Heap (l0 ++ ext) tr.

(** The table a computation returns, read from the final store. *)
Definition returns_table (out : Res ref * heap) (t : Table) : Prop :=
  ∃ r, out.1 = inr r ∧ objs out.2 !! r = Some t.

(** The positions of a table, one per row, read from two of its columns. *)
Definition coords_of (t : Table) (ra_col dec_col : string) : Res (list SkyCoord) :=
  a ← getcol t ra_col; d ← getcol t dec_col; sky_coords a d.

(** Number of columns of that name. *)
Definition count_col (name : string) (t : Table) : nat :=
  length (filter (λ n, n = name) (colnames t)).

(** The tables [xmatch_catalogs] returns, read from the final store. *)
Definition xmatch_returns (out : Res xmatch_result * heap) (m1 m2 : Table) : Prop :=
  ∃ r1 r2, out.1 = inr (MatchedTables r1 r2) ∧
    objs out.2 !! r1 = Some m1 ∧ objs out.2 !! r2 = Some m2.

(** [rs] lists the rows of [t] at the positions [idx], in that order. *)
Definition rows_at (t : Table) (idx : list nat) (rs : list row) : Prop :=
  Forall2 (λ i r, rows t !! i = Some r) idx rs.

(** The cells of a column, for a column that exists. *)
Definition column (t : Table) (name : string) : list cell :=
  match getcol t name with inr c => c | inl _ => [] end.

Section MatchVocabulary.

Context `{Numerics}.

(** The matcher's answer, index and separation, for every position of
  [coords] against the catalog [p :: rest]. *)
Definition nearest_all (coords : list SkyCoord) (p : SkyCoord) (rest : list SkyCoord)
  : list (nat * Qc) :=
(λ c, nearest c p rest) <$> coords.

(** [d2d < skydist] *)
Definition close_mask (skydist : Qc) (m : list (nat * Qc)) : list bool :=
(λ d, bool_decide (d < skydist)) <$> m.*2.

(** The accepted pairs: position in the first catalog, position of its
  nearest neighbour in the second. *)
Definition matched_idx (skydist : Qc) (m : list (nat * Qc)) : list (nat * nat) :=
mask_filter (close_mask skydist m) (zip (seq 0 (length m)) m.*1).

End MatchVocabulary.

(** ** Vocabulary for [xmatch_and_merge_cats] *)

(** The checks of [table_names]: absent, or two strings. *)
Definition names_ok (table_names : option (list pyval)) : bool :=
  match table_names with
  | None => true
  | Some [a; b] => is_str a && is_str b
  | Some _ => false
  end.

Definition has_radec (t : Table) : bool := isin "ra" (colnames t) && isin "dec" (colnames t).


(** The column names the final cleanup looks for. *)
Definition weird_names : list string := ["ra_1"; "dec_1"; "ra_2"; "dec_2"].

(** The tables of one run: the two matched tables, the inner join after its
    coordinate columns are settled, the two tables of unmatched rows, the
    stacked table and the table returned. *)
Record merge_objects : Type := mkMergeObjects {
  mo_match1 : Table; mo_match2 : Table;
  mo_inner : Table;
  mo_not_matched1 : Table; mo_not_matched2 : Table;
  mo_merged : Table;
  mo_out : Table
}.


(** The final cleanup: [merged'] is [merged] without the columns of
    [weird_names] it has. *)
Definition cleaned (merged merged' : Table) : Prop :=
  let weird := (λ n, isin n (colnames merged)) <$> weird_names in
  if existsb id weird
  then remove_columns (mask_filter weird weird_names) merged = inr merged'
  else merged' = merged.


Section MergeVocabulary.

Context `{Numerics}.

(** The objects a successful call of [xmatch_and_merge_cats] builds, and
  how each is obtained from the ones before. *)
Definition merge_steps (t1 t2 : Table) (tol : Qc) (a b : string) (kw : xmatch_kwargs)
  (o : merge_objects) : Prop :=
(has_radec t1 = true ∧ has_radec t2 = true ∧ return_match_idx kw = false) ∧
(∃ c1 p rest,
    coords_of t1 (RACol1 kw) (DecCol1 kw) = inr c1 ∧
    coords_of t2 (RACol2 kw) (DecCol2 kw) = inr (p :: rest) ∧
    mo_match1 o = mkTable (colnames t1)
                    (mask_filter (close_mask tol (nearest_all c1 p rest)) (rows t1)) ∧
    colnames (mo_match2 o) = colnames t2 ∧
    rows_at t2 (matched_idx tol (nearest_all c1 p rest)).*2 (rows (mo_match2 o))) ∧
(∃ ij0 ij1 ij2,
    hstack (mo_match1 o) (mo_match2 o) (Some [a; b]) = inr ij0 ∧
    remove_columns ["ra_" +:+ b; "dec_" +:+ b] ij0 = inr ij1 ∧
    rename_column ("ra_" +:+ a) "ra" ij1 = inr ij2 ∧
    rename_column ("dec_" +:+ a) "dec" ij2 = inr (mo_inner o)) ∧
setdiff t1 (mo_match1 o) = inr (mo_not_matched1 o) ∧
setdiff t2 (mo_match2 o) = inr (mo_not_matched2 o) ∧
((len (mo_not_matched1 o) ≠ 0%nat ∧ len (mo_not_matched2 o) ≠ 0%nat ∧
  ∃ oj st, join_outer (mo_not_matched1 o) (mo_not_matched2 o) ["ra"; "dec"] (Some [a; b]) = inr oj ∧
           vstack (mo_inner o) oj = inr st ∧
           mo_merged o = filled (Q2Qc (-999)) st) ∨
 (len (mo_not_matched1 o) ≠ 0%nat ∧ len (mo_not_matched2 o) = 0%nat ∧
  vstack (mo_inner o) (mo_not_matched1 o) = inr (mo_merged o)) ∨
 (len (mo_not_matched1 o) = 0%nat ∧ len (mo_not_matched2 o) ≠ 0%nat ∧
  vstack (mo_inner o) (mo_not_matched2 o) = inr (mo_merged o)) ∨
 (len (mo_not_matched1 o) = 0%nat ∧ len (mo_not_matched2 o) = 0%nat ∧
  mo_merged o = mo_inner o)) ∧
(∃ merged', cleaned (mo_merged o) merged' ∧
    mo_out o = filled (Q2Qc (-999)) merged').


End MergeVocabulary.

(** ** Vocabulary for the store

    [frames n m post]: run from a store of at least [n] objects, [m] leaves
    the first [n] objects as they are, removes none, and the value it
    returns satisfies [post]. *)
Definition frames {A} (n : nat) (m : M A) (Φ : A → Prop) : Prop :=
  ∀ h, (n ≤ length (objs h))%nat →
    take n (objs (m h).2) = take n (objs h) ∧
    (length (objs h) ≤ length (objs (m h).2))%nat ∧
    (∀ x, (m h).1 = inr x → Φ x).


(** ** A concrete numerical environment for the worked examples

    [grid_separation] stands in for the great-circle separation.  It is zero
    between coincident positions and exact between two positions on the
    celestial equator less than 180 degrees apart; the examples use such
    positions only.  [pow10_int] is [10**x] on integer exponents. *)
Definition Qcabs (x : Qc) : Qc := if decide (x < Q2Qc 0) then - x else x.

Definition grid_separation (c1 c2 : SkyCoord) : Qc :=
  Q2Qc 3600 * (Qcabs (ra c1 - ra c2) + Qcabs (dec c1 - dec c2)).

Definition pow10_int (x : Qc) : Qc :=
  let z := Qfloor x in
  if decide (0 ≤ z)%Z then Q2Qc (inject_Z (10 ^ z))
  else / Q2Qc (inject_Z (10 ^ (- z))).

Definition example_numerics : Numerics :=
  {| separation := grid_separation; pow10 := pow10_int |}.

(** A number as a table cell. *)
Definition num (x : Q) : cell := Some (Q2Qc x).

(** Two small catalogs on the celestial equator.  The first source of each
    is the same object, 0.36 arcsec apart in the two catalogs; the other
    sources have no counterpart. *)
Definition ex_cat1 : Table :=
  mkTable ["ra"; "dec"; "flux"] [[num 10; num 0; num 5]; [num 50; num 0; num 6]].

Definition ex_cat2 : Table :=
  mkTable ["ra"; "dec"; "flux"] [[num 10.0001; num 0; num 7]; [num 80; num 0; num 9]].

Definition ex_coords1 : list SkyCoord :=
  [mkSkyCoord (Q2Qc 10) (Q2Qc 0); mkSkyCoord (Q2Qc 50) (Q2Qc 0)].

Definition ex_coords2 : list SkyCoord :=
  [mkSkyCoord (Q2Qc 10.0001) (Q2Qc 0); mkSkyCoord (Q2Qc 80) (Q2Qc 0)].

(** * Properties *)

(** ** Lists selected by masks and by positions *)

Lemma mask_filter_length_le {A} (mask : list bool) (l : list A) :
  (length (mask_filter mask l) ≤ length l)%nat.
Proof.
  revert l; induction mask as [|b mask IH]; intros [|x l]; simpl; try lia.
  destruct b; simpl; specialize (IH l); lia.
Qed.

Lemma mask_filter_fmap {A B} (f : A → B) mask (l : list A) :
  mask_filter mask (f <$> l) = f <$> mask_filter mask l.
Proof.
  revert l; induction mask as [|b mask IH]; intros [|x l]; simpl; try done.
  destruct b; simpl; by rewrite IH.
Qed.

Lemma mask_filter_zip {A B} mask (l : list A) (k : list B) :
  mask_filter mask (zip l k) = zip (mask_filter mask l) (mask_filter mask k).
Proof.
  revert l k; induction mask as [|b mask IH]; intros [|x l] [|y k]; simpl; try done.
  - by destruct (if b then _ else _).
  - destruct b; simpl; by rewrite IH.
Qed.

Lemma elem_of_np_where (mask : list bool) i :
  i ∈ np_where mask ↔ mask !! i = Some true.
Proof.
  revert i; induction mask as [|b mask IH]; intros i; simpl.
  - rewrite elem_of_nil. by split.
  - rewrite elem_of_app, list_elem_of_fmap. split.
    + intros [Hi|(j & -> & Hj)].
      * destruct b; [apply list_elem_of_singleton in Hi; by subst|by apply elem_of_nil in Hi].
      * simpl. by apply IH.
    + destruct i as [|i]; simpl.
      * intros [= ->]. left. by apply list_elem_of_singleton.
      * intros Hi. right. exists i. split; [done|by apply IH].
Qed.

Lemma np_where_sorted (mask : list bool) : StronglySorted lt (np_where mask).
Proof.
  induction mask as [|b mask IH]; simpl; [constructor|].
  assert (StronglySorted lt (S <$> np_where mask)) as HS.
  { clear -IH. induction IH as [|x l ? IH' Hx]; simpl; constructor; [done|].
    apply Forall_fmap. eapply Forall_impl; [exact Hx|]. simpl. lia. }
  destruct b; simpl; [|done].
  constructor; [done|]. apply Forall_fmap, Forall_forall. simpl. lia.
Qed.

(** [l[mask]] is [l] read at the positions [np.where(mask)]. *)
Lemma mask_filter_seq (mask : list bool) (n : nat) :
  length mask = n → mask_filter mask (seq 0 n) = np_where mask.
Proof.
  intros <-. induction mask as [|b mask IH]; simpl; [done|].
  rewrite <-fmap_S_seq, mask_filter_fmap, IH. by destruct b.
Qed.

Lemma mask_filter_np_where {A} (mask : list bool) (l : list A) :
  length mask = length l →
  Forall2 (λ i x, l !! i = Some x) (np_where mask) (mask_filter mask l).
Proof.
  revert l; induction mask as [|b mask IH]; intros [|x l] Hlen; simplify_eq/=;
    [constructor|].
  assert (Forall2 (λ i y, (x :: l) !! i = Some y) (S <$> np_where mask) (mask_filter mask l)).
  { apply Forall2_fmap_l. eapply Forall2_impl; [by apply IH|]. done. }
  destruct b; simpl; [by constructor|done].
Qed.

Lemma take_idx_ok {A} (l : list A) (idx : list nat) k :
  take_idx l idx = inr k ↔ Forall2 (λ i x, l !! i = Some x) idx k.
Proof.
  unfold take_idx. rewrite <-mapM_Some.
  destruct (mapM _ idx); split; intros; simplify_eq; done.
Qed.

Lemma take_idx_in_range {A} (l : list A) (idx : list nat) :
  Forall (λ i, i < length l)%nat idx → ∃ k, take_idx l idx = inr k.
Proof.
  intros Hidx. unfold take_idx.
  destruct (mapM_is_Some_2 (λ i, l !! i) idx) as [k ->]; [|by eauto].
  eapply Forall_impl; [exact Hidx|]. intros i Hi. by apply lookup_lt_is_Some.
Qed.

(** ** Running computations on an extended store *)

Lemma bind_run {A B} (m : M A) (f : A → M B) h :
  (m ≫= f) h = match m h with
               | (inl e, h') => (inl e, h')
               | (inr x, h') => f x h'
               end.
Proof. reflexivity. Qed.

Lemma ret_run {A} (x : A) h : (mret x : M A) h = (inr x, h).
Proof. reflexivity. Qed.

Lemma res_bind_inr {A B} (x : A) (f : A → Res B) : (inr x ≫= f) = f x.
Proof. reflexivity. Qed.

Lemma res_bind_inl {A B} (e : exn) (f : A → Res B) : (inl e ≫= f) = inl e.
Proof. reflexivity. Qed.

Lemma py_assert_run b msg h :
  py_assert b msg h = (if b then inr () else inl (AssertionError msg), h).
Proof. by destruct b. Qed.

Section run.
Context (l0 : list Table).
Implicit Types (ext : list Table) (tr : list event).

Lemma ext_heap_nil tr : Heap l0 tr = ext_heap l0 [] tr.
Proof. unfold ext_heap. by rewrite app_nil_r. Qed.

Lemma lookup_old r t ext : l0 !! r = Some t → (l0 ++ ext) !! r = Some t.
Proof. apply lookup_app_l_Some. Qed.

Lemma lookup_new j ext : (l0 ++ ext) !! (length l0 + j)%nat = ext !! j.
Proof.
  rewrite lookup_app_r by lia.
  by replace (length l0 + j - length l0)%nat with j by lia.
Qed.

Lemma lookup_grow r t ext ext' :
  (l0 ++ ext) !! r = Some t → (l0 ++ (ext ++ ext')) !! r = Some t.
Proof. intros Hr. rewrite app_assoc. by apply lookup_app_l_Some. Qed.

Lemma deref_run r t ext tr :
  (l0 ++ ext) !! r = Some t → deref r (ext_heap l0 ext tr) = (inr t, ext_heap l0 ext tr).
Proof. intros Hr. unfold deref, ext_heap; simpl. by rewrite Hr. Qed.

Lemma alloc_run t ext tr :
  alloc t (ext_heap l0 ext tr) =
    (inr (length l0 + length ext)%nat, ext_heap l0 (ext ++ [t]) tr).
Proof. unfold alloc, ext_heap; simpl. by rewrite length_app, app_assoc. Qed.

Lemma assign_new j t ext tr :
  assign (length l0 + j) t (ext_heap l0 ext tr) =
    (inr (), ext_heap l0 (<[j:=t]> ext) tr).
Proof.
  unfold assign, ext_heap; simpl. rewrite insert_app_r_alt by lia.
  by replace (length l0 + j - length l0)%nat with j by lia.
Qed.

Lemma emit_run e ext tr :
  emit e (ext_heap l0 ext tr) = (inr (), ext_heap l0 ext (tr ++ [e])).
Proof. reflexivity. Qed.

Lemma lift_run {A} (x : Res A) ext tr :
  lift x (ext_heap l0 ext tr) = (x, ext_heap l0 ext tr).
Proof. reflexivity. Qed.

Lemma throw_run {A} e ext tr :
  throw (A:=A) e (ext_heap l0 ext tr) = (inl e, ext_heap l0 ext tr).
Proof. reflexivity. Qed.

Lemma is_table_run r t ext tr :
  (l0 ++ ext) !! r = Some t →
  is_table r (ext_heap l0 ext tr) = (inr true, ext_heap l0 ext tr).
Proof.
  intros Hr. unfold is_table, ext_heap; simpl. rewrite Hr.
  by rewrite bool_decide_true.
Qed.

Lemma tbl_colnames_run r t ext tr :
  (l0 ++ ext) !! r = Some t →
  tbl_colnames r (ext_heap l0 ext tr) = (inr (colnames t), ext_heap l0 ext tr).
Proof. intros Hr. unfold tbl_colnames. by rewrite bind_run, (deref_run _ t). Qed.

Lemma tbl_len_run r t ext tr :
  (l0 ++ ext) !! r = Some t →
  tbl_len r (ext_heap l0 ext tr) = (inr (len t), ext_heap l0 ext tr).
Proof. intros Hr. unfold tbl_len. by rewrite bind_run, (deref_run _ t). Qed.

Lemma tbl_getcol_run r t name ext tr :
  (l0 ++ ext) !! r = Some t →
  tbl_getcol r name (ext_heap l0 ext tr) = (getcol t name, ext_heap l0 ext tr).
Proof. intros Hr. unfold tbl_getcol. by rewrite bind_run, (deref_run _ t). Qed.

Lemma new1_run f r t ext tr :
  (l0 ++ ext) !! r = Some t →
  new1 f r (ext_heap l0 ext tr) =
    match f t with
    | inl e => (inl e, ext_heap l0 ext tr)
    | inr t' => (inr (length l0 + length ext)%nat, ext_heap l0 (ext ++ [t']) tr)
    end.
Proof.
  intros Hr. unfold new1. rewrite bind_run, (deref_run _ t) by done.
  rewrite bind_run, lift_run. destruct (f t); [done|]. by rewrite alloc_run.
Qed.

Lemma new2_run f r1 r2 t1 t2 ext tr :
  (l0 ++ ext) !! r1 = Some t1 → (l0 ++ ext) !! r2 = Some t2 →
  new2 f r1 r2 (ext_heap l0 ext tr) =
    match f t1 t2 with
    | inl e => (inl e, ext_heap l0 ext tr)
    | inr t' => (inr (length l0 + length ext)%nat, ext_heap l0 (ext ++ [t']) tr)
    end.
Proof.
  intros Hr1 Hr2. unfold new2. rewrite bind_run, (deref_run _ t1) by done.
  rewrite bind_run, (deref_run _ t2) by done.
  rewrite bind_run, lift_run. destruct (f t1 t2); [done|]. by rewrite alloc_run.
Qed.

Lemma update_run f j t ext tr :
  ext !! j = Some t →
  update f (length l0 + j) (ext_heap l0 ext tr) =
    match f t with
    | inl e => (inl e, ext_heap l0 ext tr)
    | inr t' => (inr (), ext_heap l0 (<[j:=t']> ext) tr)
    end.
Proof.
  intros Hj. unfold update. rewrite bind_run, (deref_run _ t) by (by rewrite lookup_new).
  rewrite bind_run, lift_run. destruct (f t); [done|]. by rewrite assign_new.
Qed.
End run.

(** ** The matcher *)

Lemma sky_coords_length a d cs : sky_coords a d = inr cs → length cs = length a.
Proof.
  revert d cs; induction a as [|[x|] a IH]; intros [|[y|] d] cs; simpl; try done.
  - by intros [= <-].
  - destruct (sky_coords a d) as [|cs'] eqn:E; simpl; [done|].
    intros [= <-]. simpl. f_equal. by eapply IH.
Qed.

Lemma getcol_length t name col : getcol t name = inr col → length col = len t.
Proof.
  unfold getcol. destruct (col_index _ _); [|done]. intros [= <-].
  by rewrite length_fmap.
Qed.

Lemma coords_of_length t a d cs : coords_of t a d = inr cs → length cs = len t.
Proof.
  unfold coords_of. destruct (getcol t a) as [|ca] eqn:Ea; simpl; [done|].
  destruct (getcol t d) as [|cd] eqn:Ed; simpl; [done|].
  intros Hc%sky_coords_length. rewrite Hc. by eapply getcol_length.
Qed.

Section matcher.
Context `{Numerics}.

Lemma nearest_lt c p rest : ((nearest c p rest).1 < S (length rest))%nat.
Proof.
  revert p; induction rest as [|p' rest IH]; intros p; simpl; [lia|].
  specialize (IH p'). destruct (nearest c p' rest) as [j d]; simpl in *.
  case_decide; simpl; lia.
Qed.

(** The separation returned is the separation to the object returned. *)
Lemma nearest_separation c p rest :
  ∃ q, (p :: rest) !! (nearest c p rest).1 = Some q ∧
       (nearest c p rest).2 = separation c q.
Proof.
  revert p; induction rest as [|p' rest IH]; intros p; simpl; [by eauto|].
  destruct (IH p') as (q & Hq & Hd). destruct (nearest c p' rest) as [j d]; simpl in *.
  case_decide; simpl; eauto.
Qed.

(** No object of the catalog is closer. *)
Lemma nearest_minimal c p rest q :
  q ∈ p :: rest → (nearest c p rest).2 ≤ separation c q.
Proof.
  revert p; induction rest as [|p' rest IH]; intros p; simpl.
  - intros ->%list_elem_of_singleton. apply Qcle_refl.
  - specialize (IH p'). destruct (nearest c p' rest) as [j d]; simpl in *.
    intros [->|Hq]%elem_of_cons; case_decide as Hle; simpl.
    + apply Qcle_refl.
    + apply Qclt_le_weak. by apply Qcnot_le_lt.
    + eapply Qcle_trans; [exact Hle|by apply IH].
    + by apply IH.
Qed.

Lemma coords_run {B} (l0 ext : list Table) tr r t a d (k : list SkyCoord → M B) :
  (l0 ++ ext) !! r = Some t →
  (tbl_getcol r a ≫= λ ra1, tbl_getcol r d ≫= λ dec1, lift (sky_coords ra1 dec1) ≫= k)
    (ext_heap l0 ext tr) =
  match coords_of t a d with
  | inl e => (inl e, ext_heap l0 ext tr)
  | inr c => k c (ext_heap l0 ext tr)
  end.
Proof.
  intros Hr. unfold coords_of.
  rewrite bind_run, (tbl_getcol_run _ _ t) by done.
  destruct (getcol t a) as [|ra1]; [done|]. rewrite res_bind_inr. cbv beta iota.
  rewrite bind_run, (tbl_getcol_run _ _ t) by done.
  destruct (getcol t d) as [|dec1]; [done|]. rewrite res_bind_inr. cbv beta iota.
  rewrite bind_run, lift_run. by destruct (sky_coords ra1 dec1).
Qed.

(** What [xmatch_catalogs] computes, stage by stage. *)
Lemma xmatch_catalogs_run (l0 ext : list Table) tr cat1 cat2 t1 t2 skydist kw :
  (l0 ++ ext) !! cat1 = Some t1 → (l0 ++ ext) !! cat2 = Some t2 →
  xmatch_catalogs cat1 cat2 skydist kw (ext_heap l0 ext tr) =
    let h := ext_heap l0 ext tr in
    if negb (isin (RACol1 kw) (colnames t1) && isin (DecCol1 kw) (colnames t1)) then
      (inl (AssertionError " Could not find either RACol1 or DecCol1 in cat1"), h)
    else if negb (isin (RACol2 kw) (colnames t2) && isin (DecCol2 kw) (colnames t2)) then
      (inl (AssertionError " Could not find either RACol2 or DecCol2 in cat2"), h)
    else
      match coords_of t1 (RACol1 kw) (DecCol1 kw) with
      | inl e => (inl e, h)
      | inr c1 =>
        match coords_of t2 (RACol2 kw) (DecCol2 kw) with
        | inl e => (inl e, h)
        | inr c2 =>
          let tr' := tr ++ [MatchToCatalogSky (length c1) (length c2)] in
          match c2 with
          | [] => (inl (ValueError "The catalog for coordinate matching cannot be a scalar or length-0."),
                   ext_heap l0 ext tr')
          | p :: rest =>
            let m := nearest_all c1 p rest in
            let close := close_mask skydist m in
            match take_idx (rows t2) (mask_filter close m.*1) with
            | inl e => (inl e, ext_heap l0 (ext ++ [mkTable (colnames t1) (mask_filter close (rows t1))]) tr')
            | inr rs2 =>
              (inr (if return_match_idx kw then MatchIndices m.*1 m.*2
                    else MatchedTables (length l0 + length ext) (length l0 + S (length ext))),
               ext_heap l0 (ext ++ [mkTable (colnames t1) (mask_filter close (rows t1));
                                    mkTable (colnames t2) rs2]) tr')
            end
          end
        end
      end.
Proof.
  intros H1 H2. unfold xmatch_catalogs. cbv zeta.
  rewrite bind_run, (is_table_run _ _ t1) by done. cbv beta iota.
  rewrite bind_run, py_assert_run. cbn [andb]. cbv beta iota.
  rewrite bind_run, (tbl_colnames_run _ _ t1) by done. cbv beta iota.
  rewrite bind_run, py_assert_run.
  destruct (isin (RACol1 kw) (colnames t1) && isin (DecCol1 kw) (colnames t1)); [|done].
  cbn [negb]. cbv beta iota.
  rewrite bind_run, (tbl_colnames_run _ _ t2) by done. cbv beta iota.
  rewrite bind_run, py_assert_run.
  destruct (isin (RACol2 kw) (colnames t2) && isin (DecCol2 kw) (colnames t2)); [|done].
  cbn [negb]. cbv beta iota.
  erewrite coords_run by done.
  destruct (coords_of t1 _ _) as [|c1] eqn:Ec1; [done|].
  erewrite coords_run by done.
  destruct (coords_of t2 _ _) as [|c2] eqn:Ec2; [done|].
  rewrite bind_run. unfold match_to_catalog_sky. rewrite bind_run, emit_run. cbv beta iota.
  destruct c2 as [|p rest]; [done|]. rewrite ret_run. cbv beta iota zeta.
  fold (nearest_all c1 p rest). fold (close_mask skydist (nearest_all c1 p rest)).
  assert (length (close_mask skydist (nearest_all c1 p rest)) = length (rows t1)) as Hlen.
  { unfold close_mask, nearest_all. rewrite !length_fmap. by eapply coords_of_length. }
  rewrite bind_run. unfold tbl_mask. rewrite (new1_run _ _ _ t1) by done.
  unfold table_mask, mask_select. rewrite decide_True by done.
  rewrite res_bind_inr. cbv beta iota. unfold mret at 1, Res_ret at 1. cbv beta iota.
  rewrite bind_run, lift_run. rewrite decide_True.
  2:{ unfold close_mask, nearest_all. by rewrite !length_fmap. }
  cbv beta iota.
  rewrite bind_run. unfold tbl_take.
  erewrite (new1_run _ _ _ t2) by (by apply lookup_grow).
  unfold table_take.
  destruct (take_idx (rows t2) _) as [|rs2].
  { rewrite res_bind_inl. done. }
  rewrite res_bind_inr. unfold mret at 1, Res_ret at 1. cbv beta iota.
  rewrite length_app. rewrite <-app_assoc. cbn [app length].
  destruct (return_match_idx kw); rewrite ret_run; [done|].
  by rewrite Nat.add_1_r.
Qed.
End matcher.

Lemma getcol_isin t name col : getcol t name = inr col → name ∈ colnames t.
Proof.
  unfold getcol, col_index.
  destruct (list_find _ _) as [[i n]|] eqn:E; simpl; [|done].
  intros _. apply list_find_Some in E as (Hi & -> & _).
  by eapply list_elem_of_lookup_2.
Qed.

Lemma coords_of_isin t a d cs :
  coords_of t a d = inr cs → isin a (colnames t) && isin d (colnames t) = true.
Proof.
  unfold coords_of. destruct (getcol t a) as [|ca] eqn:Ea; simpl; [done|].
  destruct (getcol t d) as [|cd] eqn:Ed; simpl; [done|]. intros _.
  apply getcol_isin in Ea, Ed. unfold isin.
  by rewrite !bool_decide_true.
Qed.

Lemma elem_of_mask_filter {A} (mask : list bool) (l : list A) x :
  x ∈ mask_filter mask l ↔ ∃ i, mask !! i = Some true ∧ l !! i = Some x.
Proof.
  revert l; induction mask as [|b mask IH]; intros [|y l]; simpl.
  - rewrite elem_of_nil. split; [done|]. by intros (i & ? & ?).
  - rewrite elem_of_nil. split; [done|]. by intros (i & ? & ?).
  - rewrite elem_of_nil. split; [done|]. by intros (i & ? & ?).
  - destruct b.
    + rewrite elem_of_cons, IH. split.
      * intros [->|(i & ? & ?)]; [by exists 0%nat|by exists (S i)].
      * intros ([|i] & ? & ?); simplify_eq/=; [by left|right; by exists i].
    + rewrite IH. split.
      * intros (i & ? & ?). by exists (S i).
      * intros ([|i] & ? & ?); simplify_eq/=. by exists i.
Qed.

Section accepted_pairs.
Context `{Numerics}.

Lemma matched_idx_fst skydist m :
  (matched_idx skydist m).*1 = np_where (close_mask skydist m).
Proof.
  unfold matched_idx. rewrite <-mask_filter_fmap, fst_zip.
  - apply mask_filter_seq. unfold close_mask. by rewrite !length_fmap.
  - by rewrite length_seq, length_fmap.
Qed.

Lemma matched_idx_snd skydist m :
  (matched_idx skydist m).*2 = mask_filter (close_mask skydist m) m.*1.
Proof.
  unfold matched_idx. rewrite <-mask_filter_fmap, snd_zip; [done|].
  by rewrite length_seq, length_fmap.
Qed.

Lemma elem_of_matched_idx skydist m i j :
  (i, j) ∈ matched_idx skydist m ↔ ∃ d, m !! i = Some (j, d) ∧ d < skydist.
Proof.
  unfold matched_idx. rewrite elem_of_mask_filter. split.
  - intros (k & Hk & Hz). apply lookup_zip_with_Some in Hz as (i' & j' & [= <- <-] & Hi & Hj).
    apply lookup_seq in Hi as [-> _]. simpl in *.
    unfold close_mask in Hk. rewrite !list_lookup_fmap in Hk.
    rewrite list_lookup_fmap in Hj.
    destruct (m !! k) as [[j'' d]|]; simpl in *; [|done].
    injection Hk as Hk. injection Hj as ->.
    exists d. split; [done|]. by apply bool_decide_eq_true in Hk.
  - intros (d & Hm & Hd). exists i. split.
    + unfold close_mask. rewrite !list_lookup_fmap, Hm. simpl.
      by rewrite bool_decide_true.
    + apply lookup_zip_with_Some. exists i, j. split_and!; [done| |].
      * apply lookup_seq. split; [done|]. by eapply lookup_lt_Some.
      * by rewrite list_lookup_fmap, Hm.
Qed.

Lemma nearest_all_lookup c1 p rest i j d :
  nearest_all c1 p rest !! i = Some (j, d) ↔
  ∃ c, c1 !! i = Some c ∧ nearest c p rest = (j, d).
Proof.
  unfold nearest_all. rewrite list_lookup_fmap.
  destruct (c1 !! i) as [c|]; simpl; split.
  - intros [= E]. eauto.
  - by intros (? & [= <-] & ->).
  - done.
  - by intros (? & ? & ?).
Qed.

(** With both coordinate arrays readable and a non-empty second catalog,
    [xmatch_catalogs] returns two new tables: the rows of the first
    catalog at the accepted positions, and their partners. *)
Lemma xmatch_catalogs_tables l0 ext tr cat1 cat2 t1 t2 skydist kw c1 p rest :
  (l0 ++ ext) !! cat1 = Some t1 → (l0 ++ ext) !! cat2 = Some t2 →
  coords_of t1 (RACol1 kw) (DecCol1 kw) = inr c1 →
  coords_of t2 (RACol2 kw) (DecCol2 kw) = inr (p :: rest) →
  let pairs := matched_idx skydist (nearest_all c1 p rest) in
  ∃ rs2,
    rows_at t2 pairs.*2 rs2 ∧
    rows_at t1 pairs.*1 (mask_filter (close_mask skydist (nearest_all c1 p rest)) (rows t1)) ∧
    xmatch_catalogs cat1 cat2 skydist kw (ext_heap l0 ext tr) =
      (inr (if return_match_idx kw
            then MatchIndices (nearest_all c1 p rest).*1 (nearest_all c1 p rest).*2
            else MatchedTables (length l0 + length ext) (length l0 + S (length ext))),
       ext_heap l0
         (ext ++ [mkTable (colnames t1)
                    (mask_filter (close_mask skydist (nearest_all c1 p rest)) (rows t1));
                  mkTable (colnames t2) rs2])
         (tr ++ [MatchToCatalogSky (length c1) (S (length rest))])).
Proof.
  intros H1 H2 Hc1 Hc2 pairs.
  assert (length (close_mask skydist (nearest_all c1 p rest)) = length (rows t1)) as Hlen.
  { unfold close_mask, nearest_all. rewrite !length_fmap. by eapply coords_of_length. }
  destruct (take_idx_in_range (rows t2)
              (mask_filter (close_mask skydist (nearest_all c1 p rest))
                 (nearest_all c1 p rest).*1)) as [rs2 Hrs2].
  { apply Forall_forall. intros j (i & _ & Hj)%elem_of_mask_filter.
    rewrite list_lookup_fmap in Hj.
    destruct (nearest_all c1 p rest !! i) as [[j' d]|] eqn:E; simplify_eq/=.
    apply nearest_all_lookup in E as (c & _ & E).
    pose proof (nearest_lt c p rest) as Hlt. rewrite E in Hlt. simpl in Hlt.
    apply coords_of_length in Hc2. unfold len in Hc2. simpl in Hc2. lia. }
  exists rs2. split_and!.
  - subst pairs. rewrite matched_idx_snd. by apply take_idx_ok.
  - subst pairs. rewrite matched_idx_fst. by apply mask_filter_np_where.
  - rewrite (xmatch_catalogs_run _ _ _ _ _ t1 t2) by done. cbv zeta.
    rewrite (coords_of_isin _ _ _ _ Hc1), (coords_of_isin _ _ _ _ Hc2). cbn [negb].
    rewrite Hc1, Hc2, Hrs2. done.
Qed.
End accepted_pairs.

(** ** Cross-matching: [xmatch_catalogs] *)

(** C3.  When both coordinate arrays can be read and the second catalog is
    not empty, [xmatch_catalogs] returns two tables of the same length,
    aligned row by row: row [k] of the first is a row of [cat1] and row [k]
    of the second is the row of [cat2] nearest to it, which lies within the
    tolerance; the rows of the first table follow the order of [cat1]. *)
Theorem xmatch_catalogs_aligned `{Numerics} l0 tr cat1 cat2 t1 t2 skydist kw c1 p rest :
  l0 !! cat1 = Some t1 → l0 !! cat2 = Some t2 →
  coords_of t1 (RACol1 kw) (DecCol1 kw) = inr c1 →
  coords_of t2 (RACol2 kw) (DecCol2 kw) = inr (p :: rest) →
  return_match_idx kw = false →
  ∃ m1 m2 pairs,
    xmatch_returns (xmatch_catalogs cat1 cat2 skydist kw (Heap l0 tr)) m1 m2 ∧
    len m1 = length pairs ∧ len m2 = length pairs ∧
    StronglySorted lt pairs.*1 ∧
    ∀ k i j, pairs !! k = Some (i, j) →
      (∃ r, rows t1 !! i = Some r ∧ rows m1 !! k = Some r) ∧
      (∃ r, rows t2 !! j = Some r ∧ rows m2 !! k = Some r) ∧
      ∃ c q, c1 !! i = Some c ∧ (p :: rest) !! j = Some q ∧
             separation c q < skydist ∧
             ∀ q', q' ∈ p :: rest → separation c q ≤ separation c q'.
Proof.
  intros H1 H2 Hc1 Hc2 Hret.
  destruct (xmatch_catalogs_tables l0 [] tr cat1 cat2 t1 t2 skydist kw c1 p rest)
    as (rs2 & Hrs2 & Hrs1 & Hrun); [by apply lookup_old..|done|done|].
  rewrite <-ext_heap_nil, Hret in Hrun. cbn [app length] in Hrun.
  set (m := nearest_all c1 p rest) in *.
  set (pairs := matched_idx skydist m) in *.
  eexists _, _, pairs. split_and!.
  - rewrite Hrun. eexists _, _. split_and!; [done|..]; unfold ext_heap; simpl.
    + by rewrite lookup_new.
    + by rewrite lookup_new.
  - simpl. apply Forall2_length in Hrs1. by rewrite length_fmap in Hrs1.
  - simpl. apply Forall2_length in Hrs2. by rewrite length_fmap in Hrs2.
  - subst pairs. rewrite matched_idx_fst. apply np_where_sorted.
  - intros k i j Hk. simpl.
    assert (pairs.*1 !! k = Some i) as Hi by (by rewrite list_lookup_fmap, Hk).
    assert (pairs.*2 !! k = Some j) as Hj by (by rewrite list_lookup_fmap, Hk).
    split_and!.
    + destruct (Forall2_lookup_l _ _ _ _ _ Hrs1 Hi) as (r & ? & ?). eauto.
    + destruct (Forall2_lookup_l _ _ _ _ _ Hrs2 Hj) as (r & ? & ?). eauto.
    + assert ((i, j) ∈ pairs) as Hin by (by eapply list_elem_of_lookup_2).
      apply elem_of_matched_idx in Hin as (d & Hm & Hd).
      apply nearest_all_lookup in Hm as (c & Hc & Hn).
      destruct (nearest_separation c p rest) as (q & Hq & Hsep).
      rewrite Hn in Hq, Hsep. simpl in Hq, Hsep.
      exists c, q. split_and!; [done|done|by rewrite <-Hsep|].
      intros q' Hq'. rewrite <-Hsep.
      pose proof (nearest_minimal c p rest q' Hq') as Hmin. by rewrite Hn in Hmin.
Qed.

Lemma xmatch_catalogs_aligned_witness :
  ∃ m1 m2 pairs,
    xmatch_returns
      (xmatch_catalogs (H:=example_numerics) 0 1 (Q2Qc 5) default_kwargs
         (Heap [ex_cat1; ex_cat2] [])) m1 m2 ∧
    len m1 = length pairs ∧ len m2 = length pairs ∧
    StronglySorted lt pairs.*1 ∧
    ∀ k i j, pairs !! k = Some (i, j) →
      (∃ r, rows ex_cat1 !! i = Some r ∧ rows m1 !! k = Some r) ∧
      (∃ r, rows ex_cat2 !! j = Some r ∧ rows m2 !! k = Some r) ∧
      ∃ c q, ex_coords1 !! i = Some c ∧ ex_coords2 !! j = Some q ∧
             grid_separation c q < Q2Qc 5 ∧
             ∀ q', q' ∈ ex_coords2 → grid_separation c q ≤ grid_separation c q'.
Proof.
  apply (xmatch_catalogs_aligned (H:=example_numerics)
           [ex_cat1; ex_cat2] [] 0 1 ex_cat1 ex_cat2 (Q2Qc 5) default_kwargs
           ex_coords1); reflexivity.
Defined.

(** ** Merging: [xmatch_and_merge_cats], step by step *)

Ltac solve_lookup :=
  first [ eassumption
        | apply lookup_old; eassumption
        | rewrite lookup_new; reflexivity ].

Ltac mstep_in H :=
  first
    [ rewrite bind_run in H
    | rewrite ret_run in H
    | rewrite py_assert_run in H
    | rewrite lift_run in H
    | rewrite throw_run in H
    | erewrite tbl_colnames_run in H by solve_lookup
    | erewrite tbl_len_run in H by solve_lookup
    | erewrite new1_run in H by solve_lookup
    | erewrite new2_run in H by solve_lookup
    | erewrite update_run in H by reflexivity ];
  cbv beta iota in H; cbn [app length insert list_insert] in H.

Lemma table_names_check_run l0 ext tr (tn : option (list pyval)) :
  ∃ msg,
    match tn with
    | Some tn0 =>
        py_assert (bool_decide (length tn0 = 2%nat))
          "Invalid number of table names for two tables.";;
        tn1 ← subscript tn 0; tn2 ← subscript tn 1;
        py_assert (is_str tn1 && is_str tn2) "Table names should be strings."
    | None => mret ()
    end (ext_heap l0 ext tr) =
    (if names_ok tn then inr () else inl (AssertionError msg), ext_heap l0 ext tr).
Proof.
  destruct tn as [tn0|]; [|by exists ""].
  rewrite bind_run, py_assert_run.
  destruct tn0 as [|a [|b [|??]]]; cbn [length bool_decide decide_rel]; simpl bool_decide;
    cbv beta iota; eauto.
  unfold subscript. cbn [lookup list_lookup]. rewrite bind_run, ret_run. cbv beta iota.
  rewrite bind_run, ret_run. cbv beta iota. rewrite py_assert_run.
  exists "Table names should be strings.". done.
Qed.

Lemma cleanup_inv l0 ext tr x merged r h' :
  ext !! x = Some merged →
  (tbl_colnames (length l0 + x)
     ≫= λ names : list string,
          (if existsb id ((λ n : string, isin n names) <$> ["ra_1"; "dec_1"; "ra_2"; "dec_2"])
           then update (remove_columns
                          (mask_filter ((λ n : string, isin n names) <$>
                                          ["ra_1"; "dec_1"; "ra_2"; "dec_2"])
                             ["ra_1"; "dec_1"; "ra_2"; "dec_2"])) (length l0 + x)
           else mret ())
          ≫= λ _ : (), new1 (λ t : Table, inr (filled (Q2Qc (-999)) t)) (length l0 + x))
    (ext_heap l0 ext tr) = (inr r, h') →
  ∃ merged', cleaned merged merged' ∧
    r = (length l0 + length ext)%nat ∧
    h' = ext_heap l0 (<[x:=merged']> ext ++ [filled (Q2Qc (-999)) merged']) tr.
Proof.
  intros Hx Hrun. unfold cleaned, weird_names. cbv zeta.
  rewrite bind_run in Hrun.
  erewrite tbl_colnames_run in Hrun by (by rewrite lookup_new). cbv beta iota in Hrun.
  rewrite bind_run in Hrun.
  destruct (existsb id _).
  - erewrite update_run in Hrun by done.
    destruct (remove_columns _ merged) as [|merged'] eqn:Hrm; [done|].
    cbv beta iota in Hrun.
    erewrite new1_run in Hrun.
    2:{ rewrite lookup_new. apply list_lookup_insert_eq. by eapply lookup_lt_Some. }
    cbv beta iota in Hrun. injection Hrun as <- <-.
    exists merged'. by rewrite length_insert.
  - rewrite ret_run in Hrun. cbv beta iota in Hrun.
    erewrite new1_run in Hrun by (by rewrite lookup_new).
    cbv beta iota in Hrun. injection Hrun as <- <-.
    exists merged. by rewrite list_insert_id.
Qed.

Section merge.
Context `{Numerics}.

Lemma merge_validation l0 tr tab1 tab2 t1 t2 tol tn kw :
  l0 !! tab1 = Some t1 → l0 !! tab2 = Some t2 →
  names_ok tn && has_radec t1 && has_radec t2 = false →
  ∃ msg, xmatch_and_merge_cats tab1 tab2 tol tn kw (Heap l0 tr) =
           (inl (AssertionError msg), Heap l0 tr).
Proof.
  intros H1 H2 Hbad. rewrite ext_heap_nil. unfold xmatch_and_merge_cats.
  rewrite bind_run.
  assert (∃ msg, match tn with
    | Some tn0 => py_assert (bool_decide (length tn0 = 2%nat)) "Invalid number of table names for two tables.";;
        tn1 ← subscript tn 0; tn2 ← subscript tn 1;
        py_assert (is_str tn1 && is_str tn2) "Table names should be strings."
    | None => mret () end (ext_heap l0 [] tr) =
    (if names_ok tn then inr () else inl (AssertionError msg), ext_heap l0 [] tr)) as [msg ->].
  { destruct tn as [tn0|]; [|by exists ""].
    rewrite bind_run, py_assert_run.
    destruct tn0 as [|a [|b [|??]]]; cbn [length bool_decide decide_rel]; simpl bool_decide;
      cbv beta iota; eauto.
    unfold subscript. cbn [lookup list_lookup]. rewrite bind_run, ret_run. cbv beta iota.
    rewrite bind_run, ret_run. cbv beta iota. rewrite py_assert_run.
    exists "Table names should be strings.". done. }
  destruct (names_ok tn); [|by eauto]. cbv beta iota.
  rewrite bind_run. erewrite tbl_colnames_run by solve_lookup. cbv beta iota.
  rewrite bind_run, py_assert_run. fold (has_radec t1).
  destruct (has_radec t1); [|by eauto]. cbv beta iota.
  rewrite bind_run. erewrite tbl_colnames_run by solve_lookup. cbv beta iota.
  rewrite bind_run, py_assert_run. fold (has_radec t2).
  destruct (has_radec t2); [|by eauto]. done.
Qed.

Lemma merge_inv l0 tr tab1 tab2 t1 t2 tol tn kw r h' :
  l0 !! tab1 = Some t1 → l0 !! tab2 = Some t2 →
  xmatch_and_merge_cats tab1 tab2 tol tn kw (Heap l0 tr) = (inr r, h') →
  ∃ a b o,
    tn = Some [PyStr a; PyStr b] ∧
    merge_steps t1 t2 tol a b kw o ∧
    (length l0 ≤ r)%nat ∧
    objs h' !! r = Some (mo_out o) ∧
    objs h' !! (length l0 + 0)%nat = Some (mo_match1 o) ∧
    objs h' !! (length l0 + 1)%nat = Some (mo_match2 o) ∧
    objs h' !! (length l0 + 3)%nat = Some (mo_not_matched1 o) ∧
    objs h' !! (length l0 + 4)%nat = Some (mo_not_matched2 o) ∧
    (∀ r' t', l0 !! r' = Some t' → objs h' !! r' = Some t').
Proof.
  intros H1 H2 Hrun. rewrite ext_heap_nil in Hrun. unfold xmatch_and_merge_cats in Hrun.
  rewrite bind_run in Hrun.
  destruct (table_names_check_run l0 [] tr tn) as [msg Hcheck].
  rewrite Hcheck in Hrun. clear Hcheck.
  destruct (names_ok tn) eqn:Hnames; [|done]. cbv beta iota in Hrun.
  repeat mstep_in Hrun. fold (has_radec t1) in Hrun.
  destruct (has_radec t1) eqn:Hcols1; [|done]. cbv beta iota in Hrun.
  repeat mstep_in Hrun. fold (has_radec t2) in Hrun.
  destruct (has_radec t2) eqn:Hcols2; [|done]. cbv beta iota in Hrun.
  repeat mstep_in Hrun.
  rewrite (xmatch_catalogs_run _ _ _ _ _ t1 t2) in Hrun by solve_lookup.
  cbv zeta in Hrun.
  destruct (negb _); [done|].
  destruct (negb _); [done|].
  destruct (coords_of t1 _ _) as [|c1] eqn:Hc1; [done|].
  destruct (coords_of t2 _ _) as [|[|p rest]] eqn:Hc2; [done|done|].
  destruct (take_idx _ _) as [|rs2] eqn:Hrs2; [done|].
  cbv beta iota in Hrun.
  destruct (return_match_idx kw) eqn:Hret; [done|].
  repeat mstep_in Hrun. cbn [app length] in Hrun.
  set (m := nearest_all c1 p rest) in *.
  set (m1 := mkTable (colnames t1) _) in *.
  set (m2 := mkTable (colnames t2) rs2) in *.
  unfold tbl_hstack, tbl_remove_columns, tbl_rename_columns, tbl_setdiff, tbl_join,
    tbl_vstack, tbl_filled in Hrun.
  repeat mstep_in Hrun.
  destruct (hstack m1 m2 _) as [|ij0] eqn:Hij0; [done|].
  cbv beta iota in Hrun. cbn [app length] in Hrun.
  destruct tn as [[|[a|] [|[b|] [|??]]]|]; try done. clear Hnames.
  unfold subscript in Hrun. cbn [lookup list_lookup str_of] in Hrun.
  repeat mstep_in Hrun.
  destruct (remove_columns _ ij0) as [|ij1] eqn:Hij1; [done|].
  cbv beta iota in Hrun. cbn [app length insert list_insert] in Hrun.
  cbn [length zip zip_with rename_each] in Hrun.
  rewrite decide_True in Hrun by done. unfold tbl_rename_column in Hrun.
  repeat mstep_in Hrun.
  destruct (rename_column _ "ra" ij1) as [|ij2] eqn:Hij2; [done|].
  cbv beta iota in Hrun. cbn [app length insert list_insert] in Hrun.
  repeat mstep_in Hrun.
  destruct (rename_column _ "dec" ij2) as [|ij] eqn:Hij; [done|].
  cbv beta iota in Hrun. cbn [app length insert list_insert] in Hrun.
  repeat mstep_in Hrun.
  destruct (setdiff t1 m1) as [|nm1] eqn:Hnm1; [done|].
  cbv beta iota in Hrun. cbn [app length insert list_insert] in Hrun.
  repeat mstep_in Hrun.
  destruct (setdiff t2 m2) as [|nm2] eqn:Hnm2; [done|].
  cbv beta iota in Hrun. cbn [app length insert list_insert] in Hrun.
  repeat mstep_in Hrun.
  assert (rows_at t2 (matched_idx tol m).*2 rs2) as Hat2.
  { rewrite matched_idx_snd. by apply take_idx_ok. }
  match type of Hrun with
  | (let (_, _) := ?blk in _) = _ => destruct blk as [[e|x] h1] eqn:Hblock
  end; [done|].
  assert (∀ k ext' merged merged',
    ext' !! k = Some merged → (k = 2 ∨ 5 ≤ k)%nat →
    ext' !! 0%nat = Some m1 → ext' !! 1%nat = Some m2 →
    ext' !! 3%nat = Some nm1 → ext' !! 4%nat = Some nm2 →
    let h'' := ext_heap l0 (<[k:=merged']> ext' ++ [filled (Q2Qc (-999)) merged'])
                 (tr ++ [MatchToCatalogSky (length c1) (S (length rest))]) in
    (length l0 ≤ length l0 + length ext')%nat ∧
    objs h'' !! (length l0 + length ext')%nat = Some (filled (Q2Qc (-999)) merged') ∧
    objs h'' !! (length l0 + 0)%nat = Some m1 ∧
    objs h'' !! (length l0 + 1)%nat = Some m2 ∧
    objs h'' !! (length l0 + 3)%nat = Some nm1 ∧
    objs h'' !! (length l0 + 4)%nat = Some nm2 ∧
    (∀ r' t', l0 !! r' = Some t' → objs h'' !! r' = Some t')) as Hfinal.
  { intros k ext' merged merged' Hk Hk' H0 H1' H3 H4. cbv zeta. unfold ext_heap. simpl.
    split_and!.
    - lia.
    - rewrite lookup_new. rewrite lookup_app_r by (by rewrite length_insert).
      by rewrite length_insert, Nat.sub_diag.
    - rewrite lookup_new. apply lookup_app_l_Some. rewrite list_lookup_insert_ne; [done|lia].
    - rewrite lookup_new. apply lookup_app_l_Some. rewrite list_lookup_insert_ne; [done|lia].
    - rewrite lookup_new. apply lookup_app_l_Some. rewrite list_lookup_insert_ne; [done|lia].
    - rewrite lookup_new. apply lookup_app_l_Some. rewrite list_lookup_insert_ne; [done|lia].
    - intros r' t' Hr'. by apply lookup_app_l_Some. }
  destruct (bool_decide (len nm1 ≠ 0%nat)) eqn:Hn1;
    destruct (bool_decide (len nm2 ≠ 0%nat)) eqn:Hn2;
    [apply bool_decide_eq_true in Hn1|apply bool_decide_eq_true in Hn1
    |apply bool_decide_eq_false in Hn1|apply bool_decide_eq_false in Hn1];
    [apply bool_decide_eq_true in Hn2|apply bool_decide_eq_false in Hn2
    |apply bool_decide_eq_true in Hn2|apply bool_decide_eq_false in Hn2];
    cbn [andb] in Hblock.
  - (* unmatched rows in both tables *)
    repeat mstep_in Hblock.
    destruct (join_outer nm1 nm2 _ _) as [|oj] eqn:Hoj; [done|].
    cbv beta iota in Hblock. cbn [app length insert list_insert] in Hblock.
    repeat mstep_in Hblock.
    destruct (vstack ij oj) as [|st] eqn:Hst; [done|].
    cbv beta iota in Hblock. cbn [app length insert list_insert] in Hblock.
    repeat mstep_in Hblock. injection Hblock as <- <-.
    eapply (cleanup_inv _ _ _ 7) in Hrun as (merged' & Hcl & -> & ->); [|reflexivity].
    exists a, b, (mkMergeObjects m1 m2 ij nm1 nm2 (filled (Q2Qc (-999)) st)
                    (filled (Q2Qc (-999)) merged')).
    split; [done|]. split.
    + unfold merge_steps. simpl. split_and!; try done.
      * by exists c1, p, rest.
      * by exists ij0, ij1, ij2.
      * left. split_and!; [done..|]. by exists oj, st.
      * by exists merged'.
    + eapply Hfinal; [reflexivity|lia|reflexivity..].
  - (* only table 1 has unmatched rows *)
    assert (len nm2 = 0%nat) as Hn2' by (by destruct (decide (len nm2 = 0%nat))).
    rewrite (bool_decide_true _ Hn2') in Hblock. cbn [andb] in Hblock.
    repeat mstep_in Hblock.
    destruct (vstack ij nm1) as [|st] eqn:Hst; [done|].
    cbv beta iota in Hblock. cbn [app length insert list_insert] in Hblock.
    injection Hblock as <- <-.
    eapply (cleanup_inv _ _ _ 5) in Hrun as (merged' & Hcl & -> & ->); [|reflexivity].
    exists a, b, (mkMergeObjects m1 m2 ij nm1 nm2 st (filled (Q2Qc (-999)) merged')).
    split; [done|]. split.
    + unfold merge_steps. simpl. split_and!; try done.
      * by exists c1, p, rest.
      * by exists ij0, ij1, ij2.
      * right; left. done.
      * by exists merged'.
    + eapply Hfinal; [reflexivity|lia|reflexivity..].
  - (* only table 2 *)
    assert (len nm1 = 0%nat) as Hn1' by (by destruct (decide (len nm1 = 0%nat))).
    rewrite (bool_decide_true _ Hn1') in Hblock. cbn [andb] in Hblock.
    repeat mstep_in Hblock.
    destruct (vstack ij nm2) as [|st] eqn:Hst; [done|].
    cbv beta iota in Hblock. cbn [app length insert list_insert] in Hblock.
    injection Hblock as <- <-.
    eapply (cleanup_inv _ _ _ 5) in Hrun as (merged' & Hcl & -> & ->); [|reflexivity].
    exists a, b, (mkMergeObjects m1 m2 ij nm1 nm2 st (filled (Q2Qc (-999)) merged')).
    split; [done|]. split.
    + unfold merge_steps. simpl. split_and!; try done.
      * by exists c1, p, rest.
      * by exists ij0, ij1, ij2.
      * right; right; left. done.
      * by exists merged'.
    + eapply Hfinal; [reflexivity|lia|reflexivity..].
  - (* neither *)
    assert (len nm1 = 0%nat) as Hn1' by (by destruct (decide (len nm1 = 0%nat))).
    assert (len nm2 = 0%nat) as Hn2' by (by destruct (decide (len nm2 = 0%nat))).
    rewrite (bool_decide_true _ Hn1') in Hblock. cbn [andb] in Hblock.
    rewrite ret_run in Hblock. injection Hblock as <- <-.
    eapply (cleanup_inv _ _ _ 2) in Hrun as (merged' & Hcl & -> & ->); [|reflexivity].
    exists a, b, (mkMergeObjects m1 m2 ij nm1 nm2 ij (filled (Q2Qc (-999)) merged')).
    split; [done|]. split.
    + unfold merge_steps. simpl. split_and!; try done.
      * by exists c1, p, rest.
      * by exists ij0, ij1, ij2.
      * right; right; right. done.
      * by exists merged'.
    + eapply Hfinal; [reflexivity|lia|reflexivity..].
Qed.
End merge.

(** ** Column names of combined tables *)

Lemma foldl_snoc_fmap {A B} (f : A → B) (acc : list B) (l : list A) :
  foldl (λ acc x, acc ++ [f x]) acc l = acc ++ (f <$> l).
Proof.
  revert acc; induction l as [|x l IH]; intros acc; simpl.
  - by rewrite app_nil_r.
  - by rewrite IH, <-app_assoc.
Qed.

(** With no key column, [hstack] lists the renamed columns of the first
    table, then those of the second. *)
Lemma col_name_list_hstack n1 n2 a b :
  col_name_list [] n1 n2 a b = (out_name [] n2 a <$> n1) ++ (out_name [] n1 b <$> n2).
Proof.
  unfold col_name_list.
  assert (∀ other tn, add_col_name [] other tn =
            λ acc x, acc ++ [out_name [] other tn x]) as Hadd by done.
  by rewrite !Hadd, !foldl_snoc_fmap.
Qed.

(** When every name is a key column, the result lists each name once. *)
Lemma foldl_add_common common other tn acc names :
  (∀ n, n ∈ names → n ∈ common) → NoDup acc →
  NoDup (foldl (add_col_name common other tn) acc names) ∧
  ∀ x, x ∈ foldl (add_col_name common other tn) acc names ↔ x ∈ acc ∨ x ∈ names.
Proof.
  revert acc; induction names as [|n names IH]; intros acc Hc Hacc; simpl.
  - split; [done|]. intros x. rewrite elem_of_nil. naive_solver.
  - assert (n ∈ common) as Hn by (apply Hc; left).
    unfold add_col_name at 2 4. unfold isin. rewrite (bool_decide_true _ Hn).
    destruct (IH (if bool_decide (n ∈ acc) then acc else acc ++ [n])) as [IH1 IH2].
    { intros ??. apply Hc. by right. }
    { case_bool_decide; [done|]. apply NoDup_app. split_and!; [done| |apply NoDup_singleton].
      intros x Hx ->%list_elem_of_singleton. done. }
    split; [done|]. intros x. rewrite IH2, elem_of_cons.
    case_bool_decide; [|rewrite elem_of_app, list_elem_of_singleton]; naive_solver.
Qed.

Lemma get_col_name_map_names common n1 n2 a b m :
  get_col_name_map common n1 n2 a b = inr m →
  m.*1.*1 = col_name_list common n1 n2 a b ∧ NoDup (m.*1.*1).
Proof.
  unfold get_col_name_map. case_decide as Hnd; [|done]. intros [= <-].
  rewrite <-!list_fmap_compose.
  assert ((fst ∘ fst ∘ λ o, (o, in_name common n2 a n1 o, in_name common n1 b n2 o)) = id)
    as -> by done.
  by rewrite list_fmap_id.
Qed.

Lemma hstack_spec t1 t2 tn t :
  hstack t1 t2 tn = inr t →
  ∃ a b, table_labels tn = inr (a, b) ∧
    colnames t = (out_name [] (colnames t2) a <$> colnames t1) ++
                 (out_name [] (colnames t1) b <$> colnames t2) ∧
    NoDup (colnames t) ∧ len t = (len t1 `max` len t2)%nat.
Proof.
  unfold hstack. destruct (table_labels tn) as [|[a b]]; [done|]. rewrite res_bind_inr.
  destruct (get_col_name_map _ _ _ _ _) as [|m] eqn:E; [done|]. rewrite res_bind_inr.
  intros [= <-]. apply get_col_name_map_names in E as [E1 E2]. exists a, b.
  simpl. rewrite <-col_name_list_hstack, <-E1. split_and!; [done..|].
  unfold len. simpl. by rewrite length_fmap, length_seq.
Qed.

Lemma vstack_spec t1 t2 t :
  vstack t1 t2 = inr t →
  NoDup (colnames t) ∧ (∀ n, n ∈ colnames t1 → n ∈ colnames t) ∧
  len t = (len t1 + len t2)%nat.
Proof.
  unfold vstack. cbv zeta.
  destruct (get_col_name_map _ _ _ _ _) as [|m] eqn:E; [done|]. rewrite res_bind_inr.
  intros [= <-]. apply get_col_name_map_names in E as [E1 E2]. simpl. split_and!.
  - done.
  - intros n Hn. rewrite E1. unfold col_name_list.
    set (common := remove_dups _).
    destruct (foldl_add_common common (colnames t2) "1" [] (colnames t1)) as [N1 M1].
    { intros x Hx. apply elem_of_remove_dups, elem_of_app. by left. }
    { constructor. }
    destruct (foldl_add_common common (colnames t1) "2"
                (foldl (add_col_name common (colnames t2) "1") [] (colnames t1))
                (colnames t2)) as [N2 M2]; [|done|].
    { intros x Hx. apply elem_of_remove_dups, elem_of_app. by right. }
    apply M2. left. apply M1. by right.
  - unfold len. simpl. by rewrite length_app, !length_fmap.
Qed.

Lemma remove_columns_spec names t t' :
  remove_columns names t = inr t' →
  colnames t' = filter (λ n, n ∉ names) (colnames t) ∧ len t' = len t.
Proof.
  unfold remove_columns. destruct (filter _ names); [|done]. intros [= <-].
  split; [done|]. unfold len. simpl. by rewrite length_fmap.
Qed.

Lemma rename_column_spec n n' t t' :
  rename_column n n' t = inr t' →
  rows t' = rows t ∧ (NoDup (colnames t) → NoDup (colnames t')) ∧
  n' ∈ colnames t' ∧ (∀ x, x ∈ colnames t → x ≠ n → x ∈ colnames t').
Proof.
  unfold rename_column. case_decide as Hn; [|done]. case_decide as Heq.
  { intros [= <-]. subst n'. done. }
  case_decide as Hn'; [done|]. intros [= <-]. simpl. split_and!.
  - done.
  - intros Hnd. apply NoDup_fmap_2_strong; [|done].
    intros x y Hx Hy. repeat case_decide; congruence.
  - apply list_elem_of_fmap. exists n. by rewrite decide_True.
  - intros x Hx Hxn. apply list_elem_of_fmap. exists x. by rewrite decide_False.
Qed.

Lemma count_NoDup (name : string) (l : list string) :
  NoDup l → name ∈ l → length (filter (λ n, n = name) l) = 1%nat.
Proof.
  induction 1 as [|x l Hx Hnd IH]; [by intros ?%elem_of_nil|].
  rewrite filter_cons. intros [->|Hin]%elem_of_cons.
  - rewrite decide_True by done. simpl. f_equal.
    apply length_zero_iff_nil. clear IH Hnd. induction l as [|y l IH]; [done|].
    rewrite filter_cons, decide_False.
    + apply IH. intros ?. apply Hx. by right.
    + intros ->. apply Hx. by left.
  - rewrite decide_False by (by intros ->). by apply IH.
Qed.

Lemma cleaned_spec merged merged' :
  cleaned merged merged' →
  len merged' = len merged ∧
  (NoDup (colnames merged) → NoDup (colnames merged')) ∧
  ∀ n, n ∈ colnames merged → n ∉ weird_names → n ∈ colnames merged'.
Proof.
  unfold cleaned. cbv zeta. destruct (existsb id _); [|by intros ->].
  intros [Hc Hl]%remove_columns_spec. split_and!; [done|..].
  - rewrite Hc. apply NoDup_filter.
  - intros n Hn Hw. rewrite Hc. apply list_elem_of_filter. split; [|done].
    intros (i & _ & Hi)%elem_of_mask_filter. apply Hw. by eapply list_elem_of_lookup_2.
Qed.

(** ** Input validation *)

(** C4.  When a required coordinate column is missing from either catalog,
    both operations raise an [AssertionError] and leave the store and the
    trace as they were: no matching has been attempted and no table has
    been built. *)
Theorem missing_column_rejected `{Numerics} l0 tr cat1 cat2 t1 t2 tol tn kw :
  l0 !! cat1 = Some t1 → l0 !! cat2 = Some t2 →
  ((RACol1 kw ∉ colnames t1 ∨ DecCol1 kw ∉ colnames t1 ∨
    RACol2 kw ∉ colnames t2 ∨ DecCol2 kw ∉ colnames t2) →
   ∃ msg, xmatch_catalogs cat1 cat2 tol kw (Heap l0 tr) =
            (inl (AssertionError msg), Heap l0 tr)) ∧
  (("ra" ∉ colnames t1 ∨ "dec" ∉ colnames t1 ∨
    "ra" ∉ colnames t2 ∨ "dec" ∉ colnames t2) →
   ∃ msg, xmatch_and_merge_cats cat1 cat2 tol tn kw (Heap l0 tr) =
            (inl (AssertionError msg), Heap l0 tr)).
Proof.
  intros H1 H2. split.
  - intros Hmiss. rewrite ext_heap_nil.
    rewrite (xmatch_catalogs_run _ _ _ _ _ t1 t2) by (by apply lookup_old).
    cbv zeta. unfold isin.
    destruct (decide (RACol1 kw ∈ colnames t1 ∧ DecCol1 kw ∈ colnames t1)) as [[??]|Hn].
    + rewrite !bool_decide_true by done. cbn [andb negb].
      destruct (decide (RACol2 kw ∈ colnames t2 ∧ DecCol2 kw ∈ colnames t2)) as [[??]|Hn].
      * naive_solver.
      * assert (bool_decide (RACol2 kw ∈ colnames t2) &&
                bool_decide (DecCol2 kw ∈ colnames t2) = false) as ->; [|by eauto].
        apply andb_false_iff. rewrite !bool_decide_eq_false.
        apply not_and_l in Hn. done.
    + assert (bool_decide (RACol1 kw ∈ colnames t1) &&
              bool_decide (DecCol1 kw ∈ colnames t1) = false) as ->; [|by eauto].
      apply andb_false_iff. rewrite !bool_decide_eq_false.
      apply not_and_l in Hn. done.
  - intros Hmiss. eapply merge_validation; [done..|].
    apply andb_false_iff. rewrite andb_false_iff. unfold has_radec, isin.
    rewrite !andb_false_iff, !bool_decide_eq_false. naive_solver.
Qed.

(** A catalog without a declination column. *)
Definition ex_no_dec : Table := mkTable ["ra"; "flux"] [[num 10; num 5]].

Lemma missing_column_rejected_witness :
  (∃ msg, xmatch_catalogs (H:=example_numerics) 0 1 (Q2Qc 5) default_kwargs
            (Heap [ex_no_dec; ex_cat2] []) =
            (inl (AssertionError msg), Heap [ex_no_dec; ex_cat2] [])) ∧
  (∃ msg, xmatch_and_merge_cats (H:=example_numerics) 0 1 (Q2Qc 5)
            (Some [PyStr "1"; PyStr "2"]) default_kwargs
            (Heap [ex_no_dec; ex_cat2] []) =
            (inl (AssertionError msg), Heap [ex_no_dec; ex_cat2] [])).
Proof.
  destruct (missing_column_rejected (H:=example_numerics) [ex_no_dec; ex_cat2] [] 0 1
              ex_no_dec ex_cat2 (Q2Qc 5) (Some [PyStr "1"; PyStr "2"]) default_kwargs
              eq_refl eq_refl) as [Ha Hb].
  split; [apply Ha|apply Hb]; right; left;
    by apply (bool_decide_eq_false_1 ("dec" ∈ ["ra"; "flux"])).
Defined.

(** Identical labels make [hstack] produce the same name for the [ra]
    column of either table. *)
Lemma hstack_same_label t1 t2 a :
  "ra" ∈ colnames t1 → "ra" ∈ colnames t2 →
  hstack t1 t2 (Some [a; a]) = inl (TableMergeError "Merging column names resulted in duplicates").
Proof.
  intros Hra1 Hra2. unfold hstack.
  change (table_labels (Some [a; a])) with (inr (a, a) : Res (string * string)).
  rewrite res_bind_inr.
  unfold get_col_name_map. rewrite decide_False; [done|].
  rewrite col_name_list_hstack. intros Hnd.
  apply NoDup_app in Hnd as (_ & Hdisj & _).
  apply (Hdisj (uniq_col_name "ra" a)).
  - apply list_elem_of_fmap. exists "ra". split; [|done].
    unfold out_name, isin. rewrite bool_decide_false by (by intros ?%elem_of_nil).
    by rewrite bool_decide_true.
  - apply list_elem_of_fmap. exists "ra". split; [|done].
    unfold out_name, isin. rewrite bool_decide_false by (by intros ?%elem_of_nil).
    by rewrite bool_decide_true.
Qed.

Lemma has_radec_elem t : has_radec t = true → "ra" ∈ colnames t ∧ "dec" ∈ colnames t.
Proof.
  unfold has_radec, isin. intros [?%bool_decide_eq_true ?%bool_decide_eq_true]%andb_true_iff.
  done.
Qed.

(** C5, as the code has it.  A [table_names] of the wrong length or with
    an entry that is not a string is refused by an [AssertionError] before
    anything else happens.  Two identical strings pass that check; the call
    still never returns a table. *)
Theorem table_names_rejected `{Numerics} l0 tr tab1 tab2 t1 t2 tol kw :
  l0 !! tab1 = Some t1 → l0 !! tab2 = Some t2 →
  (∀ l, (length l ≠ 2%nat ∨ ∃ v, v ∈ l ∧ is_str v = false) →
     ∃ msg, xmatch_and_merge_cats tab1 tab2 tol (Some l) kw (Heap l0 tr) =
              (inl (AssertionError msg), Heap l0 tr)) ∧
  (∀ a, ∃ e h', xmatch_and_merge_cats tab1 tab2 tol (Some [PyStr a; PyStr a]) kw (Heap l0 tr) =
                  (inl e, h')).
Proof.
  intros H1 H2. split.
  - intros l Hbad. eapply merge_validation; [done..|].
    assert (names_ok (Some l) = false) as ->; [|done].
    destruct l as [|x [|y [|??]]]; simpl; try done.
    destruct Hbad as [?|(v & Hv & Hs)]; [done|].
    apply andb_false_iff.
    apply elem_of_cons in Hv as [->|Hv]; [by left|].
    apply list_elem_of_singleton in Hv as ->. by right.
  - intros a.
    destruct (xmatch_and_merge_cats tab1 tab2 tol (Some [PyStr a; PyStr a]) kw (Heap l0 tr))
      as [[e|r] h'] eqn:Hrun; [by eauto|].
    apply (merge_inv _ _ _ _ t1 t2) in Hrun
      as (a' & b' & o & [= <- <-] & Hsteps & _); [|done..].
    destruct Hsteps as ((Hc1 & Hc2 & _) & (c1 & p & rest & _ & _ & Hm1 & Hm2 & _) &
                        (ij0 & _ & _ & Hh & _) & _).
    apply has_radec_elem in Hc1 as [Hc1 _]. apply has_radec_elem in Hc2 as [Hc2 _].
    rewrite hstack_same_label in Hh; [done|by rewrite Hm1|by rewrite Hm2].
Qed.

(** With the labels [("a", "a")] the failure comes from [hstack], after the
    matcher has run and the two matched tables have been built. *)
Lemma identical_labels_fail_after_matching :
  xmatch_and_merge_cats (H:=example_numerics) 0 1 (Q2Qc 5)
    (Some [PyStr "a"; PyStr "a"]) default_kwargs (Heap [ex_cat1; ex_cat2] []) =
  (inl (TableMergeError "Merging column names resulted in duplicates"),
   Heap [ex_cat1; ex_cat2;
         mkTable ["ra"; "dec"; "flux"] [[num 10; num 0; num 5]];
         mkTable ["ra"; "dec"; "flux"] [[num 10.0001; num 0; num 7]]]
        [MatchToCatalogSky 2 2]).
Proof. vm_compute. reflexivity. Qed.

Lemma table_names_rejected_witness :
  (∀ l, (length l ≠ 2%nat ∨ ∃ v, v ∈ l ∧ is_str v = false) →
     ∃ msg, xmatch_and_merge_cats (H:=example_numerics) 0 1 (Q2Qc 5) (Some l)
              default_kwargs (Heap [ex_cat1; ex_cat2] []) =
              (inl (AssertionError msg), Heap [ex_cat1; ex_cat2] [])) ∧
  (∀ a, ∃ e h', xmatch_and_merge_cats (H:=example_numerics) 0 1 (Q2Qc 5)
                  (Some [PyStr a; PyStr a]) default_kwargs (Heap [ex_cat1; ex_cat2] []) =
                  (inl e, h')).
Proof.
  apply (table_names_rejected (H:=example_numerics) [ex_cat1; ex_cat2] [] 0 1
           ex_cat1 ex_cat2); reflexivity.
Defined.

(** ** The coordinate columns of the merged table *)

Lemma inner_join_columns a b ij0 ij1 ij2 ij :
  NoDup (colnames ij0) →
  remove_columns ["ra_" +:+ b; "dec_" +:+ b] ij0 = inr ij1 →
  rename_column ("ra_" +:+ a) "ra" ij1 = inr ij2 →
  rename_column ("dec_" +:+ a) "dec" ij2 = inr ij →
  NoDup (colnames ij) ∧ "ra" ∈ colnames ij ∧ "dec" ∈ colnames ij ∧ len ij = len ij0.
Proof.
  intros Hnd [Hc1 Hl1]%remove_columns_spec
    (Hr2 & Hnd2 & Hra & _)%rename_column_spec (Hr & Hnd3 & Hdec & Hkeep)%rename_column_spec.
  split_and!.
  - apply Hnd3, Hnd2. rewrite Hc1. by apply NoDup_filter.
  - apply Hkeep; [done|]. simpl. discriminate.
  - done.
  - unfold len in *. by rewrite Hr, Hr2.
Qed.

Section merged_columns.
Context `{Numerics}.

Lemma merge_steps_columns t1 t2 tol a b kw o :
  merge_steps t1 t2 tol a b kw o →
  NoDup (colnames (mo_out o)) ∧
  "ra" ∈ colnames (mo_out o) ∧ "dec" ∈ colnames (mo_out o).
Proof.
  intros (_ & _ & (ij0 & ij1 & ij2 & Hh & Hrm & Hr1 & Hr2) & _ & _ & Hcase &
          (merged' & Hcl & Hout)).
  apply hstack_spec in Hh as (? & ? & _ & _ & Hnd0 & _).
  destruct (inner_join_columns _ _ _ _ _ _ Hnd0 Hrm Hr1 Hr2) as (Hnd & Hra & Hdec & _).
  assert (NoDup (colnames (mo_merged o)) ∧
          "ra" ∈ colnames (mo_merged o) ∧ "dec" ∈ colnames (mo_merged o))
    as (Hndm & Hram & Hdecm).
  { destruct Hcase as [(_ & _ & oj & st & _ & Hst & ->)|[(_ & _ & Hst)|[(_ & _ & Hst)|(_ & _ & ->)]]];
      [simpl| | |done]; apply vstack_spec in Hst as (? & Hsub & _); auto. }
  apply cleaned_spec in Hcl as (_ & Hndc & Hkeep). rewrite Hout. simpl.
  split_and!; [by apply Hndc|apply Hkeep|apply Hkeep]; try done;
    unfold weird_names; intros Hin;
    repeat (apply elem_of_cons in Hin as [Hin|Hin]; [discriminate|]);
    by apply elem_of_nil in Hin.
Qed.

(** C6.  The table [xmatch_and_merge_cats] returns has exactly one column
    named [ra] and exactly one named [dec]. *)
Theorem merged_has_one_ra_dec l0 tr tab1 tab2 t1 t2 tol tn kw out :
  l0 !! tab1 = Some t1 → l0 !! tab2 = Some t2 →
  returns_table (xmatch_and_merge_cats tab1 tab2 tol tn kw (Heap l0 tr)) out →
  count_col "ra" out = 1%nat ∧ count_col "dec" out = 1%nat.
Proof.
  intros H1 H2 (r & Hr & Hout).
  destruct (xmatch_and_merge_cats _ _ _ _ _ _) as [res h'] eqn:Hrun. simpl in *. subst res.
  apply (merge_inv _ _ _ _ t1 t2) in Hrun
    as (a & b & o & _ & Hsteps & _ & Hout' & _); [|done..].
  rewrite Hout' in Hout. injection Hout as <-.
  apply merge_steps_columns in Hsteps as (Hnd & Hra & Hdec).
  unfold count_col. split; by apply count_NoDup.
Qed.
End merged_columns.

(** The merge of the two example catalogs: one matched pair, then the
    unmatched source of each catalog with [-999] for the other's columns. *)
Definition ex_merged : Table :=
  mkTable ["ra"; "dec"; "flux_1"; "flux_2"]
    [[num 10; num 0; num 5; num 7];
     [num 50; num 0; num 6; num (-999)];
     [num 80; num 0; num (-999); num 9]].

Lemma ex_merge_returns :
  returns_table
    (xmatch_and_merge_cats (H:=example_numerics) 0 1 (Q2Qc 5)
       (Some [PyStr "1"; PyStr "2"]) default_kwargs (Heap [ex_cat1; ex_cat2] []))
    ex_merged.
Proof. exists 10%nat. split; vm_compute; reflexivity. Defined.

Lemma merged_has_one_ra_dec_witness :
  count_col "ra" ex_merged = 1%nat ∧ count_col "dec" ex_merged = 1%nat.
Proof.
  apply (merged_has_one_ra_dec (H:=example_numerics) [ex_cat1; ex_cat2] [] 0 1
           ex_cat1 ex_cat2 (Q2Qc 5) (Some [PyStr "1"; PyStr "2"]) default_kwargs ex_merged
           eq_refl eq_refl ex_merge_returns).
Defined.

(** ** Rows that were not matched: [setdiff] *)

Lemma col_index_NoDup (names : list string) i n :
  NoDup names → names !! i = Some n → col_index n names = Some i.
Proof.
  intros Hnd Hi. unfold col_index.
  assert (list_find (λ x, x = n) names = Some (i, n)) as ->; [|done].
  apply list_find_Some. split_and!; [done..|].
  intros j y Hj Hlt ->. pose proof (NoDup_lookup _ _ _ _ Hnd Hi Hj). lia.
Qed.

(** A well-formed row read under all its columns is the row itself. *)
Lemma row_key_all (names : list string) (r : row) :
  NoDup names → length r = length names → row_key names names r = r.
Proof.
  intros Hnd Hlen. apply list_eq. intros i. unfold row_key.
  rewrite list_lookup_fmap. destruct (names !! i) as [n|] eqn:Hn; simpl.
  - unfold row_get. rewrite (col_index_NoDup _ _ _ Hnd Hn). simpl.
    destruct (lookup_lt_is_Some_2 r i) as [c Hc].
    { rewrite Hlen. by eapply lookup_lt_Some. }
    by rewrite Hc.
  - symmetry. apply lookup_ge_None. rewrite Hlen. by apply lookup_ge_None.
Qed.

Lemma filter_ext_in {A} (P Q : A → Prop) `{∀ x, Decision (P x)} `{∀ x, Decision (Q x)}
    (l : list A) :
  (∀ x, x ∈ l → P x ↔ Q x) → filter P l = filter Q l.
Proof.
  induction l as [|x l IH]; intros Hext; [done|].
  rewrite !filter_cons, IH by (intros y Hy; apply Hext; by right).
  destruct (decide (P x)) as [HP|HP], (decide (Q x)) as [HQ|HQ]; try done.
  - destruct HQ. apply Hext; [by left|done].
  - destruct HP. apply Hext; [by left|done].
Qed.

(** On well-formed tables with the same columns, [setdiff] keeps the rows
    of the first table different from every row of the second. *)
Lemma setdiff_rows t1 t2 d :
  wf_table t1 → colnames t2 = colnames t1 →
  Forall (λ r, length r = length (colnames t1)) (rows t2) →
  setdiff t1 t2 = inr d →
  colnames d = colnames t1 ∧
  rows d = filter (λ r, r ∉ rows t2)
             (merge_sort (λ r r', key_le (row_key (colnames t1) (colnames t1) r)
                                         (row_key (colnames t1) (colnames t1) r'))
                (rows t1)).
Proof.
  intros [Hnd Hwf] Hcn Hwf2. unfold setdiff. cbv zeta.
  destruct (filter _ (colnames t1)); [|done].
  destruct (check_keys "Left" t1 _) as [|[]]; [done|]. rewrite res_bind_inr.
  destruct (check_keys "Right" t2 _) as [|[]]; [done|]. rewrite res_bind_inr.
  intros [= <-]. simpl. split; [done|].
  apply filter_ext_in. intros r Hr.
  rewrite merge_sort_Permutation in Hr.
  rewrite Forall_forall in Hwf. rewrite Forall_forall in Hwf2.
  rewrite (row_key_all _ r) by auto.
  assert (row_key (colnames t2) (colnames t1) <$> rows t2 = rows t2) as ->; [|done].
  rewrite Hcn. rewrite <-(list_fmap_id (rows t2)) at 2.
  apply Forall_fmap_ext_1, Forall_forall. intros r2 Hr2.
  apply row_key_all; auto.
Qed.

Lemma elem_of_setdiff t1 t2 d :
  wf_table t1 → colnames t2 = colnames t1 →
  Forall (λ r, length r = length (colnames t1)) (rows t2) →
  setdiff t1 t2 = inr d →
  ∀ x, x ∈ rows d ↔ x ∈ rows t1 ∧ x ∉ rows t2.
Proof.
  intros Hwf Hcn Hwf2 Hd x.
  destruct (setdiff_rows _ _ _ Hwf Hcn Hwf2 Hd) as [_ ->].
  rewrite list_elem_of_filter, merge_sort_Permutation. naive_solver.
Qed.

Lemma rows_at_wf t idx rs :
  wf_table t → rows_at t idx rs →
  Forall (λ r, length r = length (colnames t)) rs.
Proof.
  intros [_ Hwf] Hat. rewrite Forall_forall in Hwf. apply Forall_forall. intros r Hr.
  apply list_elem_of_lookup in Hr as [k Hk].
  destruct (Forall2_lookup_r _ _ _ _ _ Hat Hk) as (i & _ & Hi).
  apply Hwf. by eapply list_elem_of_lookup_2.
Qed.

Lemma mask_filter_wf t mask :
  wf_table t → Forall (λ r, length r = length (colnames t)) (mask_filter mask (rows t)).
Proof.
  intros [_ Hwf]. rewrite Forall_forall in Hwf. apply Forall_forall.
  intros r (i & _ & Hi)%elem_of_mask_filter. apply Hwf. by eapply list_elem_of_lookup_2.
Qed.

Section residuals.
Context `{Numerics}.

(** C7.  The unmatched rows of each input are found by content: a row of
    the input is kept exactly when no row of the matched table has the
    same cells in every column.  The tables concerned are objects of the
    call: its first two allocations are the matched tables, its fourth
    and fifth the tables of unmatched rows. *)
Theorem residuals_by_content l0 tr tab1 tab2 t1 t2 tol tn kw r h' :
  l0 !! tab1 = Some t1 → l0 !! tab2 = Some t2 →
  wf_table t1 → wf_table t2 →
  xmatch_and_merge_cats tab1 tab2 tol tn kw (Heap l0 tr) = (inr r, h') →
  ∃ m1 m2 nm1 nm2,
    objs h' !! (length l0 + 0)%nat = Some m1 ∧
    objs h' !! (length l0 + 1)%nat = Some m2 ∧
    objs h' !! (length l0 + 3)%nat = Some nm1 ∧
    objs h' !! (length l0 + 4)%nat = Some nm2 ∧
    (∀ x, x ∈ rows nm1 ↔ x ∈ rows t1 ∧ x ∉ rows m1) ∧
    (∀ x, x ∈ rows nm2 ↔ x ∈ rows t2 ∧ x ∉ rows m2).
Proof.
  intros H1 H2 Hwf1 Hwf2 Hrun.
  apply (merge_inv _ _ _ _ t1 t2) in Hrun
    as (a & b & o & _ & Hsteps & _ & _ & Hm1 & Hm2 & Hnm1 & Hnm2 & _); [|done..].
  destruct Hsteps as (_ & (c1 & p & rest & _ & _ & Em1 & Em2 & Hat2) & _ & Hd1 & Hd2 & _).
  exists (mo_match1 o), (mo_match2 o), (mo_not_matched1 o), (mo_not_matched2 o).
  split_and!; [done..| |].
  - eapply elem_of_setdiff; [done| | |done].
    + by rewrite Em1.
    + rewrite Em1. simpl. by apply mask_filter_wf.
  - eapply elem_of_setdiff; [done|done| |done].
    by eapply rows_at_wf.
Qed.
End residuals.

(** A catalog that lists the same source twice, and a one-source catalog
    that matches it.  The matcher pairs the source with the first of the
    two identical rows; the second is no one's partner, yet it is not among
    the unmatched rows, because its content is that of a matched row. *)
Definition ex_single : Table :=
  mkTable ["ra"; "dec"; "flux"] [[num 10; num 0; num 5]].

Definition ex_twice : Table :=
  mkTable ["ra"; "dec"; "flux"] [[num 10.0001; num 0; num 7]; [num 10.0001; num 0; num 7]].

Definition ex_twice_run : Res ref * heap :=
  xmatch_and_merge_cats (H:=example_numerics) 0 1 (Q2Qc 5)
    (Some [PyStr "1"; PyStr "2"]) default_kwargs (Heap [ex_single; ex_twice] []).

Lemma residuals_by_content_witness :
  ∃ m1 m2 nm1 nm2,
    objs ex_twice_run.2 !! 2%nat = Some m1 ∧
    objs ex_twice_run.2 !! 3%nat = Some m2 ∧
    objs ex_twice_run.2 !! 5%nat = Some nm1 ∧
    objs ex_twice_run.2 !! 6%nat = Some nm2 ∧
    (∀ x, x ∈ rows nm1 ↔ x ∈ rows ex_single ∧ x ∉ rows m1) ∧
    (∀ x, x ∈ rows nm2 ↔ x ∈ rows ex_twice ∧ x ∉ rows m2).
Proof.
  apply (residuals_by_content (H:=example_numerics) [ex_single; ex_twice] [] 0 1
           ex_single ex_twice (Q2Qc 5) (Some [PyStr "1"; PyStr "2"]) default_kwargs
           7%nat ex_twice_run.2 eq_refl eq_refl).
  - apply (bool_decide_unpack (wf_table ex_single)). vm_compute. exact I.
  - apply (bool_decide_unpack (wf_table ex_twice)). vm_compute. exact I.
  - vm_compute. reflexivity.
Defined.

(** In that run the table of unmatched rows of the second catalog is empty
    and the merged table has a single row. *)
Lemma ex_twice_drops_the_copy :
  (len <$> objs ex_twice_run.2 !! 3%nat) = Some 1%nat ∧
  (len <$> objs ex_twice_run.2 !! 6%nat) = Some 0%nat ∧
  (len <$> objs ex_twice_run.2 !! 7%nat) = Some 1%nat.
Proof. vm_compute. done. Qed.

(** ** The tolerance *)

Section tolerance.
Context `{Numerics}.

(** C2.  Source [i] of the first catalog, at position [c], has its nearest
    neighbour [j] at separation [d].  The pair [(i, j)] is among the
    accepted pairs, whose rows make up the two tables returned, exactly
    when [d < skydist]; and a pair of sources exactly [skydist] apart is
    never accepted. *)
Theorem xmatch_tolerance_boundary l0 tr cat1 cat2 t1 t2 skydist kw c1 p rest i c j d :
  l0 !! cat1 = Some t1 → l0 !! cat2 = Some t2 →
  coords_of t1 (RACol1 kw) (DecCol1 kw) = inr c1 →
  coords_of t2 (RACol2 kw) (DecCol2 kw) = inr (p :: rest) →
  return_match_idx kw = false →
  c1 !! i = Some c → nearest c p rest = (j, d) →
  let pairs := matched_idx skydist (nearest_all c1 p rest) in
  ∃ m1 m2,
    xmatch_returns (xmatch_catalogs cat1 cat2 skydist kw (Heap l0 tr)) m1 m2 ∧
    rows_at t1 pairs.*1 (rows m1) ∧ rows_at t2 pairs.*2 (rows m2) ∧
    ((i, j) ∈ pairs ↔ d < skydist) ∧
    (d = skydist → (i, j) ∉ pairs) ∧
    (∀ j' q, (p :: rest) !! j' = Some q → separation c q = skydist → (i, j') ∉ pairs).
Proof.
  intros H1 H2 Hc1 Hc2 Hret Hi Hn pairs.
  destruct (xmatch_catalogs_tables l0 [] tr cat1 cat2 t1 t2 skydist kw c1 p rest)
    as (rs2 & Hrs2 & Hrs1 & Hrun); [by apply lookup_old..|done|done|].
  rewrite <-ext_heap_nil, Hret in Hrun. cbn [app length] in Hrun.
  assert ((i, j) ∈ pairs ↔ d < skydist) as Hiff.
  { subst pairs. rewrite elem_of_matched_idx. split.
    - intros (d' & (c' & Hc' & Hn')%nearest_all_lookup & Hd'). congruence.
    - intros Hd. exists d. split; [|done]. apply nearest_all_lookup. eauto. }
  eexists _, _. split_and!.
  - rewrite Hrun. eexists _, _. split_and!; [done|..]; unfold ext_heap; simpl.
    + by rewrite lookup_new.
    + by rewrite lookup_new.
  - done.
  - done.
  - done.
  - intros -> Hin. apply Hiff in Hin. by apply Qclt_not_le in Hin.
  - intros j' q Hq Hsep Hin. subst pairs.
    apply elem_of_matched_idx in Hin as (d' & (c' & Hc' & Hn')%nearest_all_lookup & Hd').
    assert (c' = c) as -> by congruence.
    destruct (nearest_separation c p rest) as (q' & Hq' & Hd2).
    rewrite Hn' in Hq', Hd2. simpl in Hq', Hd2.
    assert (q' = q) as -> by congruence.
    rewrite Hd2, Hsep in Hd'. by apply Qclt_not_le in Hd'.
Qed.
End tolerance.

(** The first sources of the two example catalogs are 0.36 arcsec apart.
    With that very tolerance the pair is not accepted. *)
Lemma xmatch_tolerance_boundary_witness :
  let c := mkSkyCoord (Q2Qc 10) (Q2Qc 0) in
  let p := mkSkyCoord (Q2Qc 10.0001) (Q2Qc 0) in
  let d := grid_separation c p in
  let pairs := matched_idx (Q2Qc 0.36)
                 (nearest_all (H:=example_numerics) ex_coords1 p
                    [mkSkyCoord (Q2Qc 80) (Q2Qc 0)]) in
  ∃ m1 m2,
    xmatch_returns
      (xmatch_catalogs (H:=example_numerics) 0 1 (Q2Qc 0.36) default_kwargs
         (Heap [ex_cat1; ex_cat2] [])) m1 m2 ∧
    rows_at ex_cat1 pairs.*1 (rows m1) ∧ rows_at ex_cat2 pairs.*2 (rows m2) ∧
    ((0%nat, 0%nat) ∈ pairs ↔ d < Q2Qc 0.36) ∧
    (d = Q2Qc 0.36 → (0%nat, 0%nat) ∉ pairs) ∧
    (∀ j' q, ex_coords2 !! j' = Some q →
       grid_separation c q = Q2Qc 0.36 → (0%nat, j') ∉ pairs).
Proof.
  apply (xmatch_tolerance_boundary (H:=example_numerics) [ex_cat1; ex_cat2] [] 0 1
           ex_cat1 ex_cat2 (Q2Qc 0.36) default_kwargs ex_coords1
           (mkSkyCoord (Q2Qc 10.0001) (Q2Qc 0)) [mkSkyCoord (Q2Qc 80) (Q2Qc 0)]
           0%nat (mkSkyCoord (Q2Qc 10) (Q2Qc 0)) 0%nat
           (grid_separation (mkSkyCoord (Q2Qc 10) (Q2Qc 0))
              (mkSkyCoord (Q2Qc 10.0001) (Q2Qc 0))));
    reflexivity.
Defined.

(** The separation of that pair is the tolerance of the example. *)
Lemma ex_pair_at_tolerance :
  grid_separation (mkSkyCoord (Q2Qc 10) (Q2Qc 0)) (mkSkyCoord (Q2Qc 10.0001) (Q2Qc 0))
  = Q2Qc 0.36.
Proof. apply Qc_is_canon. vm_compute. reflexivity. Qed.

(** ** What a call leaves untouched *)

Lemma frames_ret {A} n (x : A) (Φ : A → Prop) : Φ x → frames n (mret x) Φ.
Proof. intros Hx h Hn. simpl. split_and!; [done..|]. by intros ? [= <-]. Qed.

Lemma frames_throw {A} n e (Φ : A → Prop) : frames n (throw e) Φ.
Proof. intros h Hn. simpl. done. Qed.

Lemma frames_bind {A B} n (m : M A) (f : A → M B) Φ Ψ :
  frames n m Φ → (∀ x, Φ x → frames n (f x) Ψ) → frames n (m ≫= f) Ψ.
Proof.
  intros Hm Hf h Hn. rewrite bind_run.
  destruct (Hm h Hn) as (Ht & Hl & HΦ).
  destruct (m h) as [[e|x] h1]; simpl in *; [done|].
  destruct (Hf x (HΦ x eq_refl) h1) as (Ht' & Hl' & HΨ); [lia|].
  split_and!; [congruence|lia|done].
Qed.

Lemma frames_weaken {A} n (m : M A) (Φ Ψ : A → Prop) :
  frames n m Φ → (∀ x, Φ x → Ψ x) → frames n m Ψ.
Proof. intros Hm HΦ h Hn. destruct (Hm h Hn) as (? & ? & ?). naive_solver. Qed.

Lemma frames_pure {A} n (m : M A) :
  (∀ h, (m h).2 = h) → frames n m (λ _, True).
Proof. intros Hm h Hn. rewrite Hm. done. Qed.

Lemma frames_lift {A} n (r : Res A) : frames n (lift r) (λ _, True).
Proof. by apply frames_pure. Qed.

Lemma frames_assert n b msg : frames n (py_assert b msg) (λ _, True).
Proof. apply frames_pure. intros h. by destruct b. Qed.

Lemma frames_deref n r : frames n (deref r) (λ _, True).
Proof. apply frames_pure. intros h. unfold deref. by destruct (objs h !! r). Qed.

Lemma frames_is_table n r : frames n (is_table r) (λ _, True).
Proof. by apply frames_pure. Qed.

Lemma frames_emit n e : frames n (emit e) (λ _, True).
Proof. intros h Hn. simpl. done. Qed.

Lemma frames_alloc n t : frames n (alloc t) (λ r, n ≤ r)%nat.
Proof.
  intros h Hn. simpl. split_and!.
  - by rewrite take_app_le.
  - rewrite length_app. lia.
  - by intros ? [= <-].
Qed.

Lemma frames_assign n r t : (n ≤ r)%nat → frames n (assign r t) (λ _, True).
Proof.
  intros Hr h Hn. simpl. split_and!; [|by rewrite length_insert|done].
  by rewrite take_insert_ge.
Qed.

Lemma frames_new1 n f r : frames n (new1 f r) (λ r', n ≤ r')%nat.
Proof.
  unfold new1. eapply frames_bind; [apply frames_deref|intros t _].
  eapply frames_bind; [apply frames_lift|intros t' _]. apply frames_alloc.
Qed.

Lemma frames_new2 n f r1 r2 : frames n (new2 f r1 r2) (λ r', n ≤ r')%nat.
Proof.
  unfold new2. eapply frames_bind; [apply frames_deref|intros t1 _].
  eapply frames_bind; [apply frames_deref|intros t2 _].
  eapply frames_bind; [apply frames_lift|intros t' _]. apply frames_alloc.
Qed.

Lemma frames_update n f r : (n ≤ r)%nat → frames n (update f r) (λ _, True).
Proof.
  intros Hr. unfold update. eapply frames_bind; [apply frames_deref|intros t _].
  eapply frames_bind; [apply frames_lift|intros t' _]. by apply frames_assign.
Qed.

Lemma frames_colnames n r : frames n (tbl_colnames r) (λ _, True).
Proof.
  unfold tbl_colnames. eapply frames_bind; [apply frames_deref|intros t _].
  by apply frames_ret.
Qed.

Lemma frames_len n r : frames n (tbl_len r) (λ _, True).
Proof.
  unfold tbl_len. eapply frames_bind; [apply frames_deref|intros t _].
  by apply frames_ret.
Qed.

Lemma frames_getcol n r name : frames n (tbl_getcol r name) (λ _, True).
Proof.
  unfold tbl_getcol. eapply frames_bind; [apply frames_deref|intros t _].
  apply frames_lift.
Qed.

Lemma frames_subscript n tn i : frames n (subscript tn i) (λ _, True).
Proof.
  unfold subscript. destruct tn as [l|]; [|apply frames_throw].
  destruct (l !! i); [by apply frames_ret|apply frames_throw].
Qed.

Lemma frames_rename_each n r pairs :
  (n ≤ r)%nat → frames n (rename_each r pairs) (λ _, True).
Proof.
  intros Hr. induction pairs as [|[a b] pairs IH]; simpl; [by apply frames_ret|].
  eapply frames_bind; [by apply frames_update|intros _ _]. done.
Qed.

Section frame_matcher.
Context `{Numerics}.

Lemma frames_match_to_catalog_sky n c1 c2 :
  frames n (match_to_catalog_sky c1 c2) (λ _, True).
Proof.
  unfold match_to_catalog_sky. eapply frames_bind; [apply frames_emit|intros _ _].
  destruct c2; [apply frames_throw|by apply frames_ret].
Qed.
End frame_matcher.

Lemma frames_rename_columns n r names new_names :
  (n ≤ r)%nat → frames n (tbl_rename_columns r names new_names) (λ _, True).
Proof.
  intros Hr. unfold tbl_rename_columns. case_decide; [|apply frames_throw].
  by apply frames_rename_each.
Qed.

Ltac frames_prim :=
  lazymatch goal with
  | |- frames _ (new1 _ _) _ => apply frames_new1
  | |- frames _ (new2 _ _ _) _ => apply frames_new2
  | |- frames _ (tbl_copy _) _ => apply frames_new1
  | |- frames _ (tbl_mask _ _) _ => apply frames_new1
  | |- frames _ (tbl_take _ _) _ => apply frames_new1
  | |- frames _ (tbl_filled _ _) _ => apply frames_new1
  | |- frames _ (tbl_hstack _ _ _) _ => apply frames_new2
  | |- frames _ (tbl_vstack _ _) _ => apply frames_new2
  | |- frames _ (tbl_setdiff _ _) _ => apply frames_new2
  | |- frames _ (tbl_join _ _ _ _) _ => apply frames_new2
  | |- frames _ (tbl_remove_columns _ _) _ => apply frames_update; lia
  | |- frames _ (tbl_rename_columns _ _ _) _ => apply frames_rename_columns; lia
  | |- frames _ (tbl_sort _ _) _ => apply frames_update; lia
  | |- frames _ (tbl_remove_rows _ _) _ => apply frames_update; lia
  | |- frames _ (tbl_colnames _) _ => apply frames_colnames
  | |- frames _ (tbl_len _) _ => apply frames_len
  | |- frames _ (tbl_getcol _ _) _ => apply frames_getcol
  | |- frames _ (py_assert _ _) _ => apply frames_assert
  | |- frames _ (lift _) _ => apply frames_lift
  | |- frames _ (is_table _) _ => apply frames_is_table
  | |- frames _ (subscript _ _) _ => apply frames_subscript
  | |- frames _ (match_to_catalog_sky _ _) _ => apply frames_match_to_catalog_sky
  | |- frames _ (throw _) _ => apply frames_throw
  end.

Ltac frames_go :=
  repeat lazymatch goal with
    | |- frames _ (_ ≫= _) _ => eapply frames_bind; [frames_prim|intros ? ?; cbv beta in *]
    | |- frames _ (let '(_, _) := ?p in _) _ => destruct p
    end.

Section frame_programs.
Context `{Numerics}.

Lemma frames_xmatch_catalogs n cat1 cat2 skydist kw :
  frames n (xmatch_catalogs cat1 cat2 skydist kw)
    (λ res, match res with
            | MatchedTables r1 r2 => n ≤ r1 ∧ n ≤ r2
            | MatchIndices _ _ => True
            end)%nat.
Proof.
  unfold xmatch_catalogs. frames_go.
  destruct (return_match_idx kw); by apply frames_ret.
Qed.


Lemma frames_xmatch_and_merge_cats n tab1 tab2 tol tn kw :
  frames n (xmatch_and_merge_cats tab1 tab2 tol tn kw) (λ r, n ≤ r)%nat.
Proof.
  unfold xmatch_and_merge_cats.
  eapply frames_bind.
  { instantiate (1 := λ _, True). destruct tn as [l|]; [|by apply frames_ret]. frames_go.
    apply frames_assert. }
  intros _ _. frames_go.
  eapply frames_bind; [apply frames_xmatch_catalogs|intros res Hres].
  eapply frames_bind.
  { instantiate (1 := λ '(m1, m2), (n ≤ m1 ∧ n ≤ m2)%nat).
    destruct res; [by apply frames_ret|apply frames_throw]. }
  intros [m1 m2] [Hm1 Hm2]. frames_go.
  eapply frames_bind.
  { instantiate (1 := λ merged, (n ≤ merged)%nat).
    repeat (destruct (_ && _); [frames_go; frames_prim|]). by apply frames_ret. }
  intros merged Hmerged. frames_go.
  eapply frames_bind.
  { instantiate (1 := λ _, True). destruct (existsb id _); [frames_prim|by apply frames_ret]. }
  intros _ _. frames_prim.
Qed.
End frame_programs.

Lemma frames_lookup {A} n (m : M A) Φ h r t :
  frames n m Φ → n = length (objs h) → objs h !! r = Some t →
  objs (m h).2 !! r = Some t.
Proof.
  intros Hm -> Hr. destruct (Hm h) as (Ht & _ & _); [done|].
  pose proof (lookup_lt_Some _ _ _ Hr) as Hlt.
  rewrite <-(lookup_take_lt _ (length (objs h))) by done.
  rewrite Ht, lookup_take_lt by done. done.
Qed.

Section not_mutated.
Context `{Numerics}.

(** C9.  Neither [xmatch_catalogs] nor [xmatch_and_merge_cats] changes a
    table that existed before the call, the two inputs included, whether
    the call returns or raises; and the tables returned are objects the
    call has created. *)
Theorem inputs_not_mutated l0 tr cat1 cat2 t1 t2 tol tn kw :
  l0 !! cat1 = Some t1 → l0 !! cat2 = Some t2 →
  (let out := xmatch_catalogs cat1 cat2 tol kw (Heap l0 tr) in
   (∀ r t, l0 !! r = Some t → objs out.2 !! r = Some t) ∧
   (∀ r1 r2, out.1 = inr (MatchedTables r1 r2) →
      (length l0 ≤ r1)%nat ∧ (length l0 ≤ r2)%nat ∧
      is_Some (objs out.2 !! r1) ∧ is_Some (objs out.2 !! r2))) ∧
  (let out := xmatch_and_merge_cats cat1 cat2 tol tn kw (Heap l0 tr) in
   (∀ r t, l0 !! r = Some t → objs out.2 !! r = Some t) ∧
   (∀ r, out.1 = inr r → (length l0 ≤ r)%nat ∧ is_Some (objs out.2 !! r))).
Proof.
  intros H1 H2. split; cbv zeta; split.
  - intros r t Hr. by eapply frames_lookup; [apply frames_xmatch_catalogs|..].
  - intros r1 r2. rewrite ext_heap_nil.
    rewrite (xmatch_catalogs_run _ _ _ _ _ t1 t2) by (by apply lookup_old). cbv zeta.
    repeat (match goal with
            | |- context [if ?b then _ else _] => destruct b
            | |- context [match ?x with inl _ => _ | inr _ => _ end] => destruct x
            | |- context [match ?x with [] => _ | _ :: _ => _ end] => destruct x
            end; simpl; try done).
    intros [= <- <-]. unfold ext_heap. simpl.
    rewrite (lookup_new l0 0), (lookup_new l0 1). simpl.
    split_and!; [lia|lia|by eexists..].
  - intros r t Hr. by eapply frames_lookup; [apply frames_xmatch_and_merge_cats|..].
  - intros r Hr.
    destruct (xmatch_and_merge_cats _ _ _ _ _ _) as [res h'] eqn:Hrun. simpl in *. subst res.
    apply (merge_inv _ _ _ _ t1 t2) in Hrun
      as (a & b & o & _ & _ & Hge & Hout & _); [|done..].
    split; [done|by eexists].
Qed.
End not_mutated.

Lemma inputs_not_mutated_witness :
  (let out := xmatch_catalogs (H:=example_numerics) 0 1 (Q2Qc 5) default_kwargs
                (Heap [ex_cat1; ex_cat2] []) in
   (∀ r t, [ex_cat1; ex_cat2] !! r = Some t → objs out.2 !! r = Some t) ∧
   (∀ r1 r2, out.1 = inr (MatchedTables r1 r2) →
      (2 ≤ r1)%nat ∧ (2 ≤ r2)%nat ∧
      is_Some (objs out.2 !! r1) ∧ is_Some (objs out.2 !! r2))) ∧
  (let out := xmatch_and_merge_cats (H:=example_numerics) 0 1 (Q2Qc 5)
                (Some [PyStr "1"; PyStr "2"]) default_kwargs
                (Heap [ex_cat1; ex_cat2] []) in
   (∀ r t, [ex_cat1; ex_cat2] !! r = Some t → objs out.2 !! r = Some t) ∧
   (∀ r, out.1 = inr r → (2 ≤ r)%nat ∧ is_Some (objs out.2 !! r))).
Proof.
  apply (inputs_not_mutated (H:=example_numerics) [ex_cat1; ex_cat2] [] 0 1
           ex_cat1 ex_cat2 (Q2Qc 5) (Some [PyStr "1"; PyStr "2"]) default_kwargs);
    reflexivity.
Defined.

(** ** Magnitudes to fluxes: [_mags_to_flux] *)

Lemma length_mask_filter {A} (mask : list bool) (l : list A) :
  length mask = length l → length (mask_filter mask l) = count_true mask.
Proof.
  unfold count_true. revert l; induction mask as [|b mask IH]; intros [|x l] Hl;
    simplify_eq/=; [done|].
  rewrite filter_cons. destruct b; simpl; by rewrite IH.
Qed.

Lemma mask_filter_zip_with {A B C} (g : A → B → C) mask (l : list A) (k : list B) :
  mask_filter mask (zip_with g l k) = zip_with g (mask_filter mask l) (mask_filter mask k).
Proof.
  revert l k; induction mask as [|b mask IH]; intros [|x l] [|y k]; simpl; try done.
  - by destruct (if b then _ else _).
  - destruct b; simpl; by rewrite IH.
Qed.

Lemma length_mask_fill {A} (mask : list bool) (a : list A) v : length (mask_fill mask a v) = length a.
Proof.
  revert a; induction mask as [|b mask IH]; intros [|x a]; simpl; try done.
  by rewrite IH.
Qed.

Lemma mask_fill_lookup {A} (mask : list bool) (a : list A) v i (b : bool) x :
  mask !! i = Some b → a !! i = Some x →
  mask_fill mask a v !! i = Some (if b then v else x).
Proof.
  revert a i; induction mask as [|b' mask IH]; intros [|y a] [|i]; simpl; try done.
  - by intros [= ->] [= ->].
  - apply IH.
Qed.

Lemma length_mask_put {A} (mask : list bool) (a vs : list A) : length (mask_put mask a vs) = length a.
Proof.
  revert a vs; induction mask as [|b mask IH]; intros [|x a] vs; simpl; try done.
  - by destruct b.
  - destruct b; [destruct vs|]; simpl; f_equal; apply IH.
Qed.

(** Writing back, through a mask, the values selected by that mask from
    [b]: position [i] receives [b[i]] where the mask holds and keeps
    [a[i]] elsewhere. *)
Lemma mask_put_filter_lookup {A} (mask : list bool) (a b : list A) i (m : bool) x y :
  mask !! i = Some m → a !! i = Some x → b !! i = Some y →
  mask_put mask a (mask_filter mask b) !! i = Some (if m then y else x).
Proof.
  revert a b i; induction mask as [|m' mask IH]; intros [|x' a] [|y' b] [|i]; simpl;
    try done.
  - intros [= ->] [= ->] [= ->]. by destruct m.
  - intros Hm Ha Hb. destruct m'; simpl; by apply IH.
Qed.

Lemma res_bind_ret {A B} (x : A) (f : A → Res B) : (mret x ≫= f) = f x.
Proof. reflexivity. Qed.

Section mags.
Context `{Numerics}.

(** C8.  In [_mags_to_flux] a magnitude below [-10] gives the flux [-99]
    and every other magnitude [m] gives [zpt_flux * 10**(-m/2.5)]; a
    magnitude error that is negative or equal to [999] gives the flux error
    [-99], and every other error [e] gives [flux * (10**(e/2.5) - 1)].  No
    input magnitude makes the function raise. *)
Theorem mags_to_flux_sentinels mag zpt mag_err :
  is_flux_density zpt = true →
  (∀ errs, mag_err = Some errs → length errs = length mag) →
  ∃ flux flux_err,
    _mags_to_flux mag zpt mag_err = inr (flux, flux_err) ∧
    length flux = length mag ∧
    (∀ i m, mag !! i = Some m →
       flux !! i = Some (if bool_decide (m < Q2Qc (-10)) then Q2Qc (-99)
                         else value zpt * pow10 (- m / Q2Qc 2.5))) ∧
    match mag_err, flux_err with
    | Some errs, Some ferr =>
        length ferr = length mag ∧
        ∀ i e f, errs !! i = Some e → flux !! i = Some f →
          ferr !! i = Some (if bool_decide (e < Q2Qc 0) || bool_decide (e = Q2Qc 999)
                            then Q2Qc (-99)
                            else f * (pow10 (e / Q2Qc 2.5) - Q2Qc 1))
    | None, None => True
    | _, _ => False
    end.
Proof.
  intros Hzpt Hlen. unfold _mags_to_flux. rewrite Hzpt. rewrite res_bind_ret. cbv zeta.
  set (badmags := (λ m, bool_decide (m < Q2Qc (-10))) <$> mag).
  set (formula := λ m : Qc, value zpt * pow10 (- m / Q2Qc 2.5)).
  assert (length badmags = length mag) as Hbad by (by unfold badmags; rewrite length_fmap).
  assert (length (mask_filter (negb <$> badmags) mag) = count_true (negb <$> badmags)) as Hct.
  { apply length_mask_filter. by rewrite length_fmap. }
  unfold mask_assign_scalar, mask_select, mask_assign.
  repeat (rewrite decide_True by
            (rewrite ?length_fmap, ?length_mask_fill; done); rewrite ?res_bind_inr).
  rewrite <-mask_filter_fmap.
  set (flux := mask_put _ _ _).
  assert (length flux = length mag) as Hflux.
  { unfold flux. by rewrite length_mask_put, length_mask_fill. }
  assert (∀ i m, mag !! i = Some m →
            flux !! i = Some (if bool_decide (m < Q2Qc (-10)) then Q2Qc (-99) else formula m))
    as Hpt.
  { intros i m Hm. unfold flux.
    erewrite (mask_put_filter_lookup _ _ _ i (negb (bool_decide (m < Q2Qc (-10))))
                (if bool_decide (m < Q2Qc (-10)) then Q2Qc (-99) else m) (formula m)).
    - by destruct (bool_decide _).
    - unfold badmags. by rewrite !list_lookup_fmap, Hm.
    - apply mask_fill_lookup; [|done]. unfold badmags. by rewrite list_lookup_fmap, Hm.
    - by rewrite list_lookup_fmap, Hm. }
  destruct mag_err as [errs|].
  2:{ exists flux, None. done. }
  specialize (Hlen errs eq_refl).
  set (baderrs := (λ e, bool_decide (e < Q2Qc 0) || bool_decide (e = Q2Qc 999)) <$> errs).
  assert (length baderrs = length errs) as Hbe by (by unfold baderrs; rewrite length_fmap).
  assert (length (mask_filter (negb <$> baderrs) (zip_with (λ f e, f * (pow10 (e / Q2Qc 2.5) - Q2Qc 1)) flux errs))
          = count_true (negb <$> baderrs)) as Hct2.
  { apply length_mask_filter. rewrite length_fmap, length_zip_with. lia. }
  rewrite mask_filter_zip_with in Hct2.
  repeat (rewrite decide_True by
            (rewrite ?length_fmap, ?length_mask_fill; first [done|congruence]);
          rewrite ?res_bind_inr).
  rewrite <-mask_filter_zip_with.
  eexists flux, (Some _). split; [reflexivity|]. split_and!; [done..| |].
  - rewrite length_mask_put, length_mask_fill. done.
  - intros i e f He Hf.
    erewrite (mask_put_filter_lookup _ _ _ i
                (negb (bool_decide (e < Q2Qc 0) || bool_decide (e = Q2Qc 999)))
                (if bool_decide (e < Q2Qc 0) || bool_decide (e = Q2Qc 999)
                 then Q2Qc (-99) else e)
                (f * (pow10 (e / Q2Qc 2.5) - Q2Qc 1))).
    + by destruct (_ || _).
    + unfold baderrs. by rewrite !list_lookup_fmap, He.
    + apply mask_fill_lookup; [|done]. unfold baderrs. by rewrite list_lookup_fmap, He.
    + by rewrite lookup_zip_with, Hf, He.
Qed.
End mags.

Lemma mags_to_flux_sentinels_witness :
  let mag := [Q2Qc 0; Q2Qc (-99); Q2Qc 5; Q2Qc (-10)] in
  let errs := [Q2Qc 0; Q2Qc 999; Q2Qc (-1); Q2Qc 2.5] in
  let zpt := mkQuantity (Q2Qc 3630.7805) Jy in
  ∃ flux flux_err,
    _mags_to_flux (H:=example_numerics) mag zpt (Some errs) = inr (flux, flux_err) ∧
    length flux = length mag ∧
    (∀ i m, mag !! i = Some m →
       flux !! i = Some (if bool_decide (m < Q2Qc (-10)) then Q2Qc (-99)
                         else value zpt * pow10_int (- m / Q2Qc 2.5))) ∧
    match Some errs, flux_err with
    | Some errs, Some ferr =>
        length ferr = length mag ∧
        ∀ i e f, errs !! i = Some e → flux !! i = Some f →
          ferr !! i = Some (if bool_decide (e < Q2Qc 0) || bool_decide (e = Q2Qc 999)
                            then Q2Qc (-99)
                            else f * (pow10_int (e / Q2Qc 2.5) - Q2Qc 1))
    | None, None => True
    | _, _ => False
    end.
Proof.
  apply (mags_to_flux_sentinels (H:=example_numerics)
           [Q2Qc 0; Q2Qc (-99); Q2Qc 5; Q2Qc (-10)] (mkQuantity (Q2Qc 3630.7805) Jy)
           (Some [Q2Qc 0; Q2Qc 999; Q2Qc (-1); Q2Qc 2.5]) eq_refl).
  intros errs [= <-]. reflexivity.
Defined.

(** ** Removing repeated identifiers: [remove_duplicates] *)

Lemma cell_le_refl a : cell_le a a.
Proof. destruct a; simpl; [apply Qcle_refl|done]. Qed.

Lemma cell_le_trans a b c : cell_le a b → cell_le b c → cell_le a c.
Proof. destruct a, b, c; simpl; try done. apply Qcle_trans. Qed.

Lemma cell_le_antisym a b : cell_le a b → cell_le b a → a = b.
Proof. destruct a, b; simpl; try done. intros. f_equal. by apply Qcle_antisym. Qed.

Lemma cell_le_total a b : cell_le a b ∨ cell_le b a.
Proof.
  destruct a as [x|], b as [y|]; simpl; auto.
  destruct (Qclt_le_dec x y); [left; by apply Qclt_le_weak|by right].
Qed.

(** On keys of one column the sort order is the order of the cells. *)
Lemma key_le_single a b : key_le [a] [b] ↔ cell_le a b.
Proof.
  simpl. split.
  - intros [[? _]|[-> _]]; [done|apply cell_le_refl].
  - intros Hab. destruct (decide (a = b)); [by right|by left].
Qed.

Lemma row_key_single names name i r :
  col_index name names = Some i → row_key names [name] r = [default None (r !! i)].
Proof. intros Hi. unfold row_key, row_get. simpl. by rewrite Hi. Qed.

Lemma col_index_is_Some name names : name ∈ names → is_Some (col_index name names).
Proof.
  intros Hin. unfold col_index.
  destruct (list_find_elem_of (λ n, n = name) names name) as [[i y] Hf]; [done..|].
  rewrite Hf. by eexists.
Qed.

(** [sort_by] on an existing column: the rows are rearranged so that the
    column ascends. *)
Lemma sort_by_spec key t i :
  col_index key (colnames t) = Some i →
  ∃ rs, sort_by key t = inr (mkTable (colnames t) rs) ∧ rs ≡ₚ rows t ∧
    StronglySorted cell_le ((λ r : row, default None (r !! i)) <$> rs).
Proof.
  intros Hi. unfold sort_by.
  assert (key ∈ colnames t) as Hin.
  { unfold col_index in Hi. destruct (list_find _ _) as [[j y]|] eqn:Hf; [|done].
    apply list_find_Some in Hf as (Hj & -> & _). by eapply list_elem_of_lookup_2. }
  rewrite decide_True by done. eexists. split; [done|].
  split; [apply merge_sort_Permutation|].
  set (g := λ r : row, default None (r !! i)).
  set (R := λ r r' : row, key_le (row_key (colnames t) [key] r) (row_key (colnames t) [key] r')).
  assert (∀ r r', R r r' ↔ cell_le (g r) (g r')) as HR.
  { intros r r'. unfold R. rewrite !(row_key_single _ _ i) by done. apply key_le_single. }
  eapply (StronglySorted_fmap g R); [intros ??; by apply HR|].
  apply StronglySorted_merge_sort.
  - intros x y z. rewrite !HR. apply cell_le_trans.
  - intros x y. rewrite !HR. apply cell_le_total.
Qed.

Lemma mask_filter_sublist {A} (mask : list bool) (l : list A) :
  sublist (mask_filter mask l) l.
Proof.
  revert l; induction mask as [|b mask IH]; intros [|x l]; simpl;
    try apply sublist_nil_l.
  destruct b; [by apply sublist_skip|by apply sublist_cons].
Qed.

(** The rows [remove_rows] keeps when given [duplicate_positions]: the first
    one, and every later one whose cell differs from the cell just before. *)
Lemma keep_mask_np_where (z : list bool) :
  (λ i, bool_decide (i ∉ np_where z)) <$> seq 0 (length z) = negb <$> z.
Proof.
  apply list_eq. intros i. rewrite !list_lookup_fmap.
  destruct (decide (i < length z)%nat) as [Hi|Hi].
  - rewrite lookup_seq_lt by done. simpl.
    destruct (lookup_lt_is_Some_2 z i Hi) as [b Hb]. rewrite Hb. simpl. f_equal.
    destruct b.
    + apply bool_decide_eq_false_2. intros Hn. apply Hn. by apply elem_of_np_where.
    + apply bool_decide_eq_true_2. rewrite elem_of_np_where. by rewrite Hb.
  - rewrite lookup_seq_ge by lia. rewrite lookup_ge_None_2 by lia. done.
Qed.

Lemma duplicate_positions_mask c (col : list cell) :
  (λ i, bool_decide (i ∉ duplicate_positions (c :: col))) <$> seq 0 (S (length col)) =
  true :: (negb <$> zip_with cell_eqb col (c :: col)).
Proof.
  unfold duplicate_positions.
  change (drop 1 (c :: col)) with col.
  replace (length (c :: col) - 1)%nat with (length col) by (simpl; lia).
  rewrite zip_with_take_r.
  set (z := zip_with cell_eqb col (c :: col)).
  assert (length z = length col) as Hz.
  { unfold z. rewrite length_zip_with. simpl. lia. }
  simpl seq. rewrite fmap_cons. f_equal.
  - apply bool_decide_eq_true_2. intros (j & ? & _)%list_elem_of_fmap. done.
  - rewrite <-fmap_S_seq, <-list_fmap_compose, <-Hz, <-keep_mask_np_where.
    apply list_fmap_ext. intros _ j _. simpl. apply bool_decide_ext.
    rewrite list_elem_of_fmap. split.
    + intros Hn Hj. apply Hn. by exists j.
    + intros Hn (j' & [= <-] & Hj). done.
Qed.

Lemma duplicate_positions_in_range (col : list cell) :
  Forall (λ i, i < length col)%nat (duplicate_positions col).
Proof.
  unfold duplicate_positions. apply Forall_fmap, Forall_forall. intros j Hj. simpl.
  apply elem_of_np_where, lookup_lt_Some in Hj.
  rewrite length_zip_with, length_drop, length_take in Hj. lia.
Qed.

(** In an ascending column, the cells kept after a cell [prev] hold each
    value once, unless [prev] holds it already. *)
Lemma kept_count prev (col : list cell) x :
  StronglySorted cell_le (prev :: col) →
  length (filter (λ c, c = Some x)
            (mask_filter (negb <$> zip_with cell_eqb col (prev :: col)) col)) =
  if decide (prev = Some x) then 0%nat
  else if decide (Some x ∈ col) then 1%nat else 0%nat.
Proof.
  revert prev; induction col as [|c col IH]; intros prev Hs.
  { simpl. destruct (decide (prev = Some x)); [done|].
    destruct (decide (Some x ∈ [])) as [Hin|]; [by apply elem_of_nil in Hin|done]. }
  apply StronglySorted_inv in Hs as [Hs Hprev].
  specialize (IH c Hs).
  change (zip_with cell_eqb (c :: col) (prev :: c :: col))
    with (cell_eqb c prev :: zip_with cell_eqb col (c :: col)).
  rewrite fmap_cons. simpl mask_filter.
  assert (cell_eqb c prev = true → c = prev) as Heq.
  { destruct c, prev; simpl; try done. by intros ->%bool_decide_eq_true_1. }
  destruct (decide (prev = Some x)) as [->|Hne].
  - destruct (decide (c = Some x)) as [->|Hc].
    + assert (cell_eqb (Some x) (Some x) = true) as ->
        by (simpl; by apply bool_decide_eq_true_2).
      cbn [negb]. exact IH.
    + assert (Some x ∉ col) as Hnot.
      { intros Hin. apply Hc. apply cell_le_antisym.
        - apply StronglySorted_inv in Hs as [_ Hall].
          rewrite Forall_forall in Hall. by apply Hall.
        - by apply Forall_cons in Hprev as [? _]. }
      rewrite decide_False in IH by done.
      destruct (cell_eqb c (Some x)); cbn [negb]; [done|].
      by rewrite filter_cons_False.
  - destruct (decide (c = Some x)) as [->|Hc].
    + assert (cell_eqb (Some x) prev = false) as ->.
      { apply not_true_is_false. intros E. by apply Heq in E. }
      cbn [negb]. rewrite filter_cons_True by done. cbn [length]. rewrite IH.
      rewrite decide_True; [done|apply list_elem_of_here].
    + assert (length (filter (λ c0, c0 = Some x)
                (if negb (cell_eqb c prev)
                 then c :: mask_filter (negb <$> zip_with cell_eqb col (c :: col)) col
                 else mask_filter (negb <$> zip_with cell_eqb col (c :: col)) col)) =
              length (filter (λ c0, c0 = Some x)
                (mask_filter (negb <$> zip_with cell_eqb col (c :: col)) col))) as ->.
      { destruct (negb _); [|done]. by rewrite filter_cons_False. }
      rewrite IH. destruct (decide (Some x ∈ col)) as [Hin|Hin].
      * rewrite decide_True; [done|by apply list_elem_of_further].
      * rewrite decide_False; [done|]. intros [?|?]%elem_of_cons; done.
Qed.

Lemma kept_count_first (col : list cell) x :
  StronglySorted cell_le col → Some x ∈ col →
  length (filter (λ c, c = Some x)
            (mask_filter ((λ i, bool_decide (i ∉ duplicate_positions col)) <$>
                            seq 0 (length col)) col)) = 1%nat.
Proof.
  destruct col as [|c col]; [by intros _ ?%elem_of_nil|]. intros Hs Hin.
  change (length (c :: col)) with (S (length col)).
  rewrite duplicate_positions_mask. cbn [mask_filter].
  pose proof (kept_count c col x Hs) as Hk.
  destruct (decide (c = Some x)) as [->|Hc].
  - rewrite filter_cons_True by done. cbn [length]. by rewrite Hk.
  - rewrite filter_cons_False by done. rewrite Hk.
    rewrite decide_True; [done|]. apply elem_of_cons in Hin as [?|?]; done.
Qed.

Lemma column_eq t name i :
  col_index name (colnames t) = Some i →
  column t name = (λ r : row, default None (r !! i)) <$> rows t.
Proof. intros Hi. unfold column, getcol. by rewrite Hi. Qed.

(** The run of [remove_duplicates] on a table that has the column. *)
Lemma remove_duplicates_run l0 tr tab idcol t s :
  l0 !! tab = Some t → sort_by idcol t = inr s →
  remove_duplicates tab idcol (Heap l0 tr) =
    (inr (length l0),
     Heap (l0 ++ [mkTable (colnames s)
                    (mask_filter
                       ((λ j, bool_decide (j ∉ duplicate_positions (column s idcol))) <$>
                          seq 0 (len s)) (rows s))]) tr).
Proof.
  intros Ht Hs.
  assert (idcol ∈ colnames t) as Hin.
  { unfold sort_by in Hs. by destruct (decide _). }
  destruct (col_index_is_Some _ _ Hin) as [i Hi].
  assert (colnames s = colnames t) as Hcs.
  { unfold sort_by in Hs. rewrite decide_True in Hs by done. by simplify_eq. }
  unfold remove_duplicates, tbl_copy, tbl_sort, tbl_remove_rows.
  rewrite ext_heap_nil.
  rewrite bind_run, (new1_run _ _ _ t) by (by apply lookup_old).
  rewrite bind_run, (tbl_colnames_run _ _ t) by (by apply lookup_grow, lookup_old).
  rewrite bind_run, py_assert_run. unfold isin. rewrite bool_decide_true by done.
  simpl length. rewrite Nat.add_0_r. simpl app.
  pose proof (λ f u, update_run l0 f 0 u [u] tr eq_refl) as Hu.
  pose proof (λ u, tbl_getcol_run l0 (length l0 + 0) u idcol [u] tr (lookup_new l0 0 [u])) as Hgc.
  rewrite Nat.add_0_r in Hu, Hgc.
  rewrite bind_run, Hu, Hs. cbn [insert list_insert].
  assert (getcol s idcol = inr (column s idcol)) as Hg.
  { unfold column, getcol. rewrite Hcs, Hi. done. }
  rewrite bind_run, Hgc, Hg.
  rewrite bind_run, Hu. unfold remove_rows. rewrite decide_True.
  2:{ rewrite <-(getcol_length s idcol (column s idcol)) by done.
      apply duplicate_positions_in_range. }
  by rewrite ret_run.
Qed.

(** C10.  On a table that has the column [idcol], [remove_duplicates]
    returns a new object and changes no existing one, the input included.
    The new table has the columns of the input and a selection of the rows
    of the input sorted by [idcol], in that order; every value the input
    holds under [idcol] is held by exactly one row of it. *)
Theorem remove_duplicates_unique l0 tr tab idcol t :
  l0 !! tab = Some t → idcol ∈ colnames t →
  ∃ s u, sort_by idcol t = inr s ∧ rows s ≡ₚ rows t ∧
    remove_duplicates tab idcol (Heap l0 tr) = (inr (length l0), Heap (l0 ++ [u]) tr) ∧
    colnames u = colnames t ∧ sublist (rows u) (rows s) ∧
    ∀ x, Some x ∈ column t idcol →
      length (filter (λ c, c = Some x) (column u idcol)) = 1%nat.
Proof.
  intros Ht Hin. destruct (col_index_is_Some _ _ Hin) as [i Hi].
  destruct (sort_by_spec idcol t i Hi) as (rs & Hs & Hperm & Hsorted).
  eexists _, _. split; [exact Hs|]. split; [done|].
  split; [by apply (remove_duplicates_run _ _ _ _ t)|].
  split; [done|]. split; [apply mask_filter_sublist|].
  intros x Hx. cbn [rows colnames].
  rewrite (column_eq _ _ i) by done. rewrite (column_eq _ _ i) in Hx by done.
  cbn [rows]. rewrite <-mask_filter_fmap.
  rewrite (column_eq _ _ i) by done. cbn [rows len].
  change (len _) with (length rs).
  rewrite <-(length_fmap (λ r : row, default None (r !! i)) rs).
  apply kept_count_first; [done|]. by rewrite Hperm.
Qed.

Definition ex_ids : Table :=
  mkTable ["id"; "flux"]
    [[num 3; num 10]; [num 1; num 11]; [num 3; num 12]; [num 2; num 13]; [num 1; num 14]].

Lemma remove_duplicates_unique_witness :
  ∃ s u, sort_by "id" ex_ids = inr s ∧ rows s ≡ₚ rows ex_ids ∧
    remove_duplicates 0 "id" (Heap [ex_ids] []) = (inr 1%nat, Heap ([ex_ids] ++ [u]) []) ∧
    colnames u = colnames ex_ids ∧ sublist (rows u) (rows s) ∧
    ∀ x, Some x ∈ column ex_ids "id" →
      length (filter (λ c, c = Some x) (column u "id")) = 1%nat.
Proof.
  apply (remove_duplicates_unique [ex_ids] [] 0 "id" ex_ids); [reflexivity|].
  apply (bool_decide_unpack ("id" ∈ ["id"; "flux"])). vm_compute. reflexivity.
Defined.

(** ** The number of rows of the merged table *)











Section row_count.
Context `{Numerics}.





End row_count.




(** Two sources of the first catalog on either side of the single source
    of the second, each 0.36 arcsec from it. *)
Definition ex_near_pair : Table :=
  mkTable ["ra"; "dec"; "flux"] [[num 10; num 0; num 5]; [num 10.0002; num 0; num 6]].

Definition ex_one : Table :=
  mkTable ["ra"; "dec"; "flux"] [[num 10.0001; num 0; num 7]].

(** C1.  Both sources of the first catalog have the one source of the
    second as their nearest neighbour, within the tolerance.  The matched
    table of the second catalog then holds that row twice, no row of the
    second catalog is left unmatched, and the merged table has two rows
    that both carry the row of the second catalog.  So a row of the second
    catalog is in the result twice, and the matched pairs together with
    the unmatched rows of the second catalog (2 + 0) are more than its
    rows (1). *)
Lemma one_row_matched_twice :
  let run := xmatch_and_merge_cats (H:=example_numerics) 0 1 (Q2Qc 5)
               (Some [PyStr "1"; PyStr "2"]) default_kwargs
               (Heap [ex_near_pair; ex_one] []) in
  returns_table run
    (mkTable ["ra"; "dec"; "flux_1"; "flux_2"]
       [[num 10; num 0; num 5; num 7]; [num 10.0002; num 0; num 6; num 7]]) ∧
  objs run.2 !! 3%nat =
    Some (mkTable ["ra"; "dec"; "flux"]
            [[num 10.0001; num 0; num 7]; [num 10.0001; num 0; num 7]]) ∧
  (len <$> objs run.2 !! 6%nat) = Some 0%nat ∧
  len ex_one = 1%nat.
Proof.
  cbv zeta. split_and!; [|vm_compute; reflexivity..].
  eexists. split; vm_compute; reflexivity.
Qed.

(** * Further properties of the module *)

(** ** [xmatch_catalogs]: an empty second catalog, and the index form *)


Section matcher_edges.
Context `{Numerics}.


End matcher_edges.



(** ** [xmatch_and_merge_cats]: calls that cannot succeed, and the fill *)

Section merge_edges.
Context `{Numerics}.



End merge_edges.




(** ** [remove_duplicates]: a missing column, the ids kept, the store *)










(** ** [_mags_to_flux]: the calls that raise *)

Section mags_errors.
Context `{Numerics}.

End mags_errors.


(** ** Cleaning a catalog: [clean_heasarc] and [clean_cat] *)























(** ** Sorting by index: [argsort] *)








(** ** Matching identifiers: [match_ids] *)





(** ** Sorting a catalog by separation: [sort_by_separation] *)



Lemma set_column_len name vals t t' :
  set_column name vals t = inr t' → len t' = len t.
Proof.
  unfold set_column. case_decide as Hlen; [|done].
  destruct (col_index _ _); intros [= <-]; unfold len in *; simpl;
    rewrite length_zip_with; lia.
Qed.

Section sort_by_separation.
Context `{Numerics}.


End sort_by_separation.


